(** * The unlock sequencer of src/app/page.tsx

    A shallow embedding of the client component [HomePage] and of its hook
    [useUnlockSequence]: the React state of the component, the batches of
    state updates its handlers and effects enqueue, the passes that render
    them and run the effects whose dependencies changed, the timers the
    sequencer arms with [setTimeout] and the closure ([cancelled], [timeouts])
    each run of the sequencer effect owns.

    React is taken as version 18 runs a client component: the setter calls
    made in one handler, one pass of effects or one timer callback are
    batched into a single render; effects run after the render is committed,
    in the order the component declares them, and only when a dependency
    changed; a resolved promise resumes the awaiting function before anything
    else runs, so a timer firing and the continuation of [executeSequence]
    are one step.

    Numbers that the code only counts with (indices, the run token, times in
    milliseconds) are modelled as [Z]: JavaScript numbers are exact on
    integers below 2^53.  The progress percentage is computed in binary64
    arithmetic, as [Math.round(((i + 1) / (length + 1)) * 90)] is. *)

From Stdlib Require Import ZArith List Lia String.
From Stdlib Require Import Floats.PrimFloat Floats.FloatOps Floats.SpecFloat Uint63.
From stdpp Require Import gmap list.

Open Scope Z_scope.

(** ** Data model (page.tsx, lines 5-14) *)

Inductive UnlockPhase := idle | running | complete.
Inductive PreviewMode := light | dark.

Record UnlockStep := mkStep {
  step_id : string;
  title : string;
  description : string;
  duration : Z;
  highlight : string
}.

#[global] Instance UnlockPhase_eq_dec : EqDecision UnlockPhase.
Proof. solve_decision. Defined.
#[global] Instance PreviewMode_eq_dec : EqDecision PreviewMode.
Proof. solve_decision. Defined.

(** [STEP_SEQUENCE], lines 16-52. *)
Definition STEP_SEQUENCE : list UnlockStep := [
  mkStep "scan" "Calibrating Neural Preferences"
    "Sampling your AI companion’s preferences to detect how bold its night vision mode should be."
    1200 "Signal lock acquired";
  mkStep "contrast" "Amplifying Contrast Matrix"
    "Infusing deeper blacks and inky gradients while keeping UI clarity at 100%."
    1500 "Contrast tuned to 97%";
  mkStep "particles" "Applying Quantum Glow Suppressor"
    "Dialing back rogue photons so the interface stays calm and low-noise."
    1400 "Glare reduced by 84%";
  mkStep "handoff" "Handing Off To Aesthetic Co-processor"
    "Synchronising gradients, icons, and shadows with the new dark theme spec."
    1100 "Palette sync complete";
  mkStep "stabilize" "Stabilising Experience Layer"
    "Locking in animation smoothness and preparing guided dark mode onboarding."
    1300 "Experience sealed"
].

(** [DEMO_SCRIPT], lines 69-73. *)
Definition DEMO_SCRIPT : list string := [
  "Invite everyone to watch the “calibration lasers” hone in on their favourite palettes.";
  "Point out how the preview panel flips into noir mode at the finale.";
  "Remind the audience that nothing here touches production — it is pure theatre."
]%string.

Definition len {A} (l : list A) : Z := Z.of_nat (length l).

(** ** JavaScript arithmetic used by the sequencer *)

Module JS.

(** An integer below 2^53 as a JavaScript number. *)
Definition of_Z (z : Z) : float := PrimFloat.of_uint63 (Uint63.of_Z z).

(** [Math.round]: the nearest integer, ties towards +infinity.  The
    argument is decoded exactly into sign, mantissa and exponent. *)
Definition Math_round (x : float) : Z :=
  match Prim2SF x with
  | S754_finite s m e =>
      let num := if s then Z.neg m else Z.pos m in
      if 0 <=? e then num * 2 ^ e
      else (2 * num + 2 ^ (- e)) / (2 * 2 ^ (- e))
  | _ => 0
  end.

(** [%] on integers: the remainder takes the sign of the dividend. *)
Definition rem (a b : Z) : Z := Z.rem a b.

End JS.

(** [Math.round(((i + 1) / (n + 1)) * 90)], line 98, for a catalog of [n]
    steps. *)
Definition progress_at (n : Z) (i : Z) : Z :=
  JS.Math_round
    (PrimFloat.mul (PrimFloat.div (JS.of_Z (i + 1)) (JS.of_Z (n + 1))) (JS.of_Z 90)).

(** The same quantity in exact rational arithmetic, rounding half up. *)
Definition round_ratio_90 (n i : Z) : Z :=
  (2 * ((i + 1) * 90) + (n + 1)) / (2 * (n + 1)).

(** ** React state *)

(** The four [useState] cells of [HomePage] (lines 129-132) and the two of
    [useUnlockSequence] (lines 80-81). *)
Record State := mkState {
  phase : UnlockPhase;
  runToken : Z;
  previewMode : PreviewMode;
  scriptIndex : Z;
  stepIndex : Z;
  progress : Z
}.

(** A call of a state setter, with a value or with an updater function. *)
Inductive Update :=
| setStepIndex (i : Z)
| setProgress (p : Z)
| setPhase (p : UnlockPhase)
| setRunTokenWith (f : Z -> Z)
| setPreviewMode (m : PreviewMode)
| setPreviewModeWith (f : PreviewMode -> PreviewMode)
| setScriptIndex (i : Z)
| setScriptIndexWith (f : Z -> Z).

Definition apply_update (s : State) (u : Update) : State :=
  match u with
  | setStepIndex i =>
      mkState (phase s) (runToken s) (previewMode s) (scriptIndex s) i (progress s)
  | setProgress p =>
      mkState (phase s) (runToken s) (previewMode s) (scriptIndex s) (stepIndex s) p
  | setPhase p =>
      mkState p (runToken s) (previewMode s) (scriptIndex s) (stepIndex s) (progress s)
  | setRunTokenWith f =>
      mkState (phase s) (f (runToken s)) (previewMode s) (scriptIndex s) (stepIndex s) (progress s)
  | setPreviewMode m =>
      mkState (phase s) (runToken s) m (scriptIndex s) (stepIndex s) (progress s)
  | setPreviewModeWith f =>
      mkState (phase s) (runToken s) (f (previewMode s)) (scriptIndex s) (stepIndex s) (progress s)
  | setScriptIndex i =>
      mkState (phase s) (runToken s) (previewMode s) i (stepIndex s) (progress s)
  | setScriptIndexWith f =>
      mkState (phase s) (runToken s) (previewMode s) (f (scriptIndex s)) (stepIndex s) (progress s)
  end.

Definition apply_updates (s : State) (us : list Update) : State :=
  fold_left apply_update us s.

(** ** Timers, closures and the world around the component *)

(** The variables one run of the sequencer effect closes over (lines 88-89).
    [token] is the [runToken] of the render that ran the effect; the code
    does not read it, it labels the run. *)
Record Closure := mkClosure {
  token : Z;
  cancelled : bool;
  timeouts : list nat
}.

(** A pending [setTimeout(resolve, d)]: when it fires, [executeSequence] of
    closure [owner] resumes at loop index [resume_at]. *)
Record Timer := mkTimer {
  handle : nat;
  due : Z;
  owner : nat;
  resume_at : nat
}.

(** What the sequencer did, attributed to the run that did it. *)
Inductive Obs :=
| ObsStep (tok : Z) (i : Z)
| ObsProgress (tok : Z) (p : Z)
| ObsComplete (tok : Z).

Definition obs_token (o : Obs) : Z :=
  match o with ObsStep t _ | ObsProgress t _ | ObsComplete t => t end.

Definition is_complete_of (tok : Z) (o : Obs) : bool :=
  match o with ObsComplete t => t =? tok | _ => false end.

Record World := mkWorld {
  st : State;                   (* the state of the last committed render *)
  queue : list Update;          (* setter calls not yet rendered *)
  now : Z;                      (* the clock, in ms *)
  timers : list Timer;          (* pending timers, in the order they were armed *)
  next_id : nat;                (* next unused timer handle / closure identity *)
  closures : gmap nat Closure;  (* the closures of the sequencer effect *)
  cleanup : option nat;         (* the cleanup the sequencer effect returned last *)
  log : list Obs                (* sequencer calls, newest first *)
}.

Definition initial_state : State := mkState idle 0 light 0 (-1) 0.

Definition initial : World := mkWorld initial_state [] 0 [] 0%nat ∅ None [].

Definition enqueue (us : list Update) (w : World) : World :=
  mkWorld (st w) (queue w ++ us) (now w) (timers w) (next_id w)
          (closures w) (cleanup w) (log w).

(** [clearTimeout(handle)]: a handle that already fired is ignored. *)
Definition clearTimeout (h : nat) (ts : list Timer) : list Timer :=
  filter (λ t, handle t ≠ h) ts.

Definition clearTimeouts (hs : list nat) (ts : list Timer) : list Timer :=
  fold_left (λ ts h, clearTimeout h ts) hs ts.

(** The longest delay [setTimeout] takes as it is: the delay is a signed
    32-bit integer. *)
Definition MAX_DELAY : Z := 2 ^ 31 - 1.

(** ** The hook and the component *)

Section Sequencer.

(** The step catalog the sequencer plays; [STEP_SEQUENCE] in the page. *)
Variable catalog : list UnlockStep.

Definition progress_of (i : nat) : Z := progress_at (len catalog) (Z.of_nat i).

(** [executeSequence] (lines 91-110) from the head of its loop at index [i]
    up to the next [await]: entered with [i = 0] when the effect calls it,
    and with [i + 1] when the timer armed at index [i] resolves the awaited
    promise.  The timer waits for the duration of the step, a negative one
    counting as none; that is what [setTimeout] does with a delay of up to
    [MAX_DELAY], and the statements about how long a step lasts ask for
    durations in that range. *)
Definition executeSequence (c : nat) (i : nat) (w : World) : World :=
  match closures w !! c with
  | None => w
  | Some cl =>
      match catalog !! i with
      | Some s =>
          if cancelled cl then w
          else
            let h := next_id w in
            mkWorld (st w)
              (queue w ++ [setStepIndex (Z.of_nat i); setProgress (progress_of i)])
              (now w)
              (timers w ++ [mkTimer h (now w + Z.max 0 (duration s)) c (S i)])
              (S h)
              (<[c := mkClosure (token cl) (cancelled cl) (timeouts cl ++ [h])]> (closures w))
              (cleanup w)
              (ObsProgress (token cl) (progress_of i)
                 :: ObsStep (token cl) (Z.of_nat i) :: log w)
      | None =>
          if cancelled cl then w
          else
            (* onComplete is handleSequenceComplete: setPhase('complete') *)
            mkWorld (st w) (queue w ++ [setProgress 100; setPhase complete])
              (now w) (timers w) (next_id w) (closures w) (cleanup w)
              (ObsComplete (token cl) :: ObsProgress (token cl) 100 :: log w)
      end
  end.

(** The cleanup the sequencer effect returns (lines 114-117). *)
Definition cleanup_sequence (w : World) : World :=
  match cleanup w with
  | None => w
  | Some c =>
      match closures w !! c with
      | None => w
      | Some cl =>
          mkWorld (st w) (queue w) (now w)
            (clearTimeouts (timeouts cl) (timers w))
            (next_id w)
            (<[c := mkClosure (token cl) true (timeouts cl)]> (closures w))
            None (log w)
      end
  end.

(** The sequencer effect (lines 83-113), run for the render [s]. *)
Definition effect_sequence (s : State) (w : World) : World :=
  match phase s with
  | running =>
      let c := next_id w in
      let w1 :=
        mkWorld (st w) (queue w) (now w) (timers w) (S c)
          (<[c := mkClosure (runToken s) false []]> (closures w))
          (cleanup w) (log w) in
      let w2 := executeSequence c 0 w1 in
      mkWorld (st w2) (queue w2) (now w2) (timers w2) (next_id w2)
        (closures w2) (Some c) (log w2)
  | _ => w
  end.

(** The effect on [phase] (lines 144-149). *)
Definition effect_complete (s : State) (w : World) : World :=
  match phase s with
  | complete => enqueue [setPreviewMode dark; setScriptIndex 2] w
  | _ => w
  end.

(** The effect on [phase, stepIndex] (lines 151-155). *)
Definition effect_narration (s : State) (w : World) : World :=
  if bool_decide (phase s = running) && (0 <=? stepIndex s)
     && (stepIndex s <? len DEMO_SCRIPT)
  then enqueue [setScriptIndex (stepIndex s)] w
  else w.

(** The dependency arrays; [onComplete] is a [useCallback] with no
    dependencies and never changes. *)
Definition deps_sequence (s : State) : UnlockPhase * Z := (phase s, runToken s).
Definition deps_complete (s : State) : UnlockPhase := phase s.
Definition deps_narration (s : State) : UnlockPhase * Z := (phase s, stepIndex s).

(** One render pass: the queued updates are applied in order and the
    result is committed; then the cleanup of the sequencer effect runs if
    its dependencies changed, and the effects whose dependencies changed
    run in the order the component declares them. *)
Definition commit (w : World) : World :=
  let old := st w in
  let new := apply_updates old (queue w) in
  let w0 :=
    mkWorld new [] (now w) (timers w) (next_id w) (closures w) (cleanup w) (log w) in
  let w1 :=
    if bool_decide (deps_sequence old = deps_sequence new) then w0
    else effect_sequence new (cleanup_sequence w0) in
  let w2 :=
    if bool_decide (deps_complete old = deps_complete new) then w1
    else effect_complete new w1 in
  if bool_decide (deps_narration old = deps_narration new) then w2
  else effect_narration new w2.

(** Render passes repeat while effects keep enqueueing updates; React gives
    up after 50 nested passes. *)
Definition NESTED_UPDATE_LIMIT : nat := 50.

Fixpoint flush (fuel : nat) (w : World) : World :=
  match fuel with
  | O => w
  | S fuel' =>
      match queue w with
      | [] => w
      | _ :: _ => flush fuel' (commit w)
      end
  end.

Definition settle (w : World) : World := flush NESTED_UPDATE_LIMIT w.

(** *** Handlers of [HomePage] *)

(** [resetSequence], lines 120-123. *)
Definition resetSequence : list Update := [setStepIndex (-1); setProgress 0].

(** [startUnlock], lines 169-175. *)
Definition startUnlock : list Update :=
  resetSequence ++
  [setPhase running; setPreviewMode light; setScriptIndex 0;
   setRunTokenWith (λ token, token + 1)].

(** [resetUnlock], lines 177-182. *)
Definition resetUnlock : list Update :=
  resetSequence ++ [setPhase idle; setPreviewMode light; setScriptIndex 0].

(** [togglePreview], lines 184-186. *)
Definition togglePreview : list Update :=
  [setPreviewModeWith (λ mode, match mode with light => dark | dark => light end)].

(** The two narration buttons, lines 312-321. *)
Definition previousBeat : list Update :=
  [setScriptIndexWith (λ prev, JS.rem (prev - 1 + len DEMO_SCRIPT) (len DEMO_SCRIPT))].

Definition nextBeat : list Update :=
  [setScriptIndexWith (λ prev, JS.rem (prev + 1) (len DEMO_SCRIPT))].

(** A handler runs to its end, then its batch is rendered. *)
Definition dispatch (handler : list Update) (w : World) : World :=
  settle (enqueue handler w).

(** *** Time *)

(** The pending timer that fires first: the least [due], the one armed
    first among equals. *)
Fixpoint earliest (ts : list Timer) : option Timer :=
  match ts with
  | [] => None
  | tm :: ts' =>
      match earliest ts' with
      | None => Some tm
      | Some tm' => if due tm <=? due tm' then Some tm else Some tm'
      end
  end.

Definition next_timer (deadline : Z) (ts : list Timer) : option Timer :=
  match earliest ts with
  | Some tm => if due tm <=? deadline then Some tm else None
  | None => None
  end.

(** A timer fires: the promise resolves, [executeSequence] resumes, and
    the updates it made are rendered. *)
Definition fire (tm : Timer) (w : World) : World :=
  settle
    (executeSequence (owner tm) (resume_at tm)
       (mkWorld (st w) (queue w) (Z.max (now w) (due tm))
          (clearTimeout (handle tm) (timers w))
          (next_id w) (closures w) (cleanup w) (log w))).

Fixpoint advance_to (fuel : nat) (deadline : Z) (w : World) : World :=
  match fuel with
  | O => w
  | S fuel' =>
      match next_timer deadline (timers w) with
      | Some tm => advance_to fuel' deadline (fire tm w)
      | None =>
          mkWorld (st w) (queue w) (Z.max (now w) deadline) (timers w)
            (next_id w) (closures w) (cleanup w) (log w)
      end
  end.

(** Every pending timer stands for at most one await per step still to
    play, and one more pass finds nothing due. *)
Definition advance_fuel (w : World) : nat :=
  S (length (timers w) * S (length catalog)).

(** [ms] milliseconds pass with no user input. *)
Definition advance (ms : Z) (w : World) : World :=
  advance_to (advance_fuel w) (now w + Z.max 0 ms) w.

(** *** Executions *)

Inductive Event :=
| StartUnlock | ResetUnlock | TogglePreview | PreviousBeat | NextBeat
| Elapse (ms : Z).

Definition step (w : World) (e : Event) : World :=
  match e with
  | StartUnlock => dispatch startUnlock w
  | ResetUnlock => dispatch resetUnlock w
  | TogglePreview => dispatch togglePreview w
  | PreviousBeat => dispatch previousBeat w
  | NextBeat => dispatch nextBeat w
  | Elapse ms => advance ms w
  end.

Definition run (es : list Event) (w : World) : World := fold_left step es w.

Inductive reachable : World -> Prop :=
| reach_initial : reachable initial
| reach_step w e : reachable w -> reachable (step w e).

(** *** The view (lines 199-264) *)

(** The two buttons that are disabled while a run is in flight. *)
Definition start_disabled (s : State) : bool := bool_decide (phase s = running).
Definition reset_disabled (s : State) : bool := bool_decide (phase s = running).

Inductive TimelineStatus := timeline_pending | timeline_active | timeline_complete.

(** The class of the timeline entry at [index], lines 244-251. *)
Definition timeline_status (s : State) (index : Z) : TimelineStatus :=
  if index <? stepIndex s then timeline_complete
  else if index =? stepIndex s then timeline_active
  else if bool_decide (phase s = complete) then timeline_complete
  else timeline_pending.

Definition timeline (s : State) : list TimelineStatus :=
  imap (λ index _, timeline_status s (Z.of_nat index)) catalog.

(** *** Vocabulary of the statements *)

(** The time at which the timer of step [k - 1] fires, counted from the
    start of the run: [setTimeout] treats a negative delay as none. *)
Definition elapsed_until (k : nat) : Z :=
  foldr (λ s acc, Z.max 0 (duration s) + acc) 0 (take k catalog).

Definition total_duration : Z := foldr (λ s acc, duration s + acc) 0 catalog.

(** How often the run labelled [tok] called [onComplete]. *)
Fixpoint completions (tok : Z) (l : list Obs) : nat :=
  match l with
  | [] => O
  | o :: l' => ((if is_complete_of tok o then 1 else 0) + completions tok l')%nat
  end.

(** What each phase means for the sequencer: at rest nothing is pending;
    while running exactly one timer is pending, it belongs to the live
    closure of the current run and resumes it after the step on show. *)
Definition phase_inv (w : World) : Prop :=
  match phase (st w) with
  | idle =>
      cleanup w = None ∧ timers w = [] ∧
      stepIndex (st w) = -1 ∧ progress (st w) = 0
  | complete =>
      cleanup w = None ∧ timers w = [] ∧
      stepIndex (st w) = len catalog - 1 ∧ progress (st w) = 100 ∧
      completions (runToken (st w)) (log w) = 1%nat
  | running =>
      ∃ c hs k s h d,
        cleanup w = Some c ∧
        closures w !! c = Some (mkClosure (runToken (st w)) false hs) ∧
        catalog !! k = Some s ∧
        stepIndex (st w) = Z.of_nat k ∧
        progress (st w) = progress_of k ∧
        timers w = [mkTimer h d c (S k)] ∧
        h ∈ hs ∧ now w ≤ d ∧
        completions (runToken (st w)) (log w) = O
  end.

(** Every closure was allocated below [nid], is labelled by a token up to
    [t], and is cancelled unless it is the one whose cleanup is pending. *)
Definition closures_ok (cls : gmap nat Closure) (nid : nat) (t : Z)
    (cu : option nat) : Prop :=
  ∀ c cl, cls !! c = Some cl →
    (c < nid)%nat ∧ token cl ≤ t ∧ (cu ≠ Some c → cancelled cl = true).

Record Inv (w : World) : Prop := mkInv {
  inv_queue : queue w = [];
  inv_phase : phase_inv w;
  inv_closures : closures_ok (closures w) (next_id w) (runToken (st w)) (cleanup w);
  inv_log : ∀ o, o ∈ log w → obs_token o ≤ runToken (st w);
  inv_script : 0 ≤ scriptIndex (st w) < len DEMO_SCRIPT;
  inv_token : 0 ≤ runToken (st w)
}.

(** The two shapes a world satisfying the invariant can have. *)
Inductive Shape : World -> Prop :=
| shape_resting p t pm si sx pr nw nid cls lg :
    p <> running ->
    Shape (mkWorld (mkState p t pm si sx pr) [] nw [] nid cls None lg)
| shape_running t pm si k nw h d c nid cls lg hs s :
    cls !! c = Some (mkClosure t false hs) ->
    h ∈ hs ->
    catalog !! k = Some s ->
    nw <= d ->
    Shape (mkWorld (mkState running t pm si (Z.of_nat k) (progress_of k)) []
             nw [mkTimer h d c (S k)] nid cls (Some c) lg).

(** The clock moved to [t], nothing else touched. *)
Definition at_time (t : Z) (w : World) : World :=
  mkWorld (st w) (queue w) t (timers w) (next_id w) (closures w) (cleanup w) (log w).

(** The pending timer of a running world fires at [d]: either the next
    step goes on show, or the run is over. *)
Inductive fired (d : Z) : World -> World -> Prop :=
| fired_next t pm si k pr nw h c nid cls lg hs s' :
    cls !! c = Some (mkClosure t false hs) ->
    catalog !! S k = Some s' ->
    fired d
      (mkWorld (mkState running t pm si (Z.of_nat k) pr) [] nw
         [mkTimer h d c (S k)] nid cls (Some c) lg)
      (mkWorld
         (mkState running t pm
            (if Z.of_nat (S k) <? 3 then Z.of_nat (S k) else si)
            (Z.of_nat (S k)) (progress_of (S k)))
         [] d [mkTimer nid (d + Z.max 0 (duration s')) c (S (S k))] (S nid)
         (<[c := mkClosure t false (hs ++ [nid])]> cls) (Some c)
         (ObsProgress t (progress_of (S k)) :: ObsStep t (Z.of_nat (S k)) :: lg))
| fired_last t pm si k pr nw h c nid cls lg hs :
    cls !! c = Some (mkClosure t false hs) ->
    catalog !! S k = None ->
    fired d
      (mkWorld (mkState running t pm si (Z.of_nat k) pr) [] nw
         [mkTimer h d c (S k)] nid cls (Some c) lg)
      (mkWorld (mkState complete t dark 2 (Z.of_nat k) 100) [] d [] nid
         (<[c := mkClosure t true hs]> cls) None
         (ObsComplete t :: ObsProgress t 100 :: lg)).

(** [ticks D w w']: from [w], timers due by [D] fired one after the other
    and left [w']. *)
Inductive ticks (D : Z) : World -> World -> Prop :=
| ticks_done w : ticks D w w
| ticks_fire w tm w' :
    next_timer D (timers w) = Some tm ->
    ticks D (fire tm w) w' ->
    ticks D w w'.

(** Awaits the pending run still has to go through. *)
Definition remaining (w : World) : nat :=
  match timers w with
  | tm :: _ => S (length catalog - resume_at tm)
  | [] => O
  end.

(** The log of [w'] extends the log of [w] by calls of the current run. *)
Definition log_extends (w w' : World) : Prop :=
  ∃ new, log w' = new ++ log w ∧
         ∀ o, o ∈ new → obs_token o = runToken (st w').

(** A run that started at [t0] keeps time: step [k] went on show no earlier
    than the durations before it allow, its timer is due when its own
    duration has passed too, and the run is over no earlier than all of
    them. *)
Definition on_schedule (t0 : Z) (w : World) : Prop :=
  match phase (st w) with
  | running =>
      ∃ k, stepIndex (st w) = Z.of_nat k ∧
           t0 + elapsed_until k ≤ now w ∧
           ∀ tm, tm ∈ timers w → due tm = t0 + elapsed_until (S k)
  | complete => t0 + elapsed_until (length catalog) ≤ now w
  | idle => True
  end.

(** Milliseconds that pass in a list of waits. *)
Definition time_passed (waits : list Z) : Z :=
  foldr (λ ms acc, Z.max 0 ms + acc) 0 waits.

(** The beat [onSequenceStep] would show if it clamped the step index to
    the narration script. *)
Definition clamp_beat (i : Z) : Z := Z.max 0 (Z.min i (len DEMO_SCRIPT - 1)).

Definition flip (m : PreviewMode) : PreviewMode :=
  match m with light => dark | dark => light end.

Definition is_start (e : Event) : bool :=
  match e with StartUnlock => true | _ => false end.

Definition is_reset (e : Event) : bool :=
  match e with ResetUnlock => true | _ => false end.

Definition count_starts (es : list Event) : Z :=
  len (filter (λ e, is_start e = true) es).

End Sequencer.

(** The page as it is: the catalog is [STEP_SEQUENCE]. *)
Definition demo (es : list Event) : World := run STEP_SEQUENCE es initial.

(** Three readings of the view and of the narration that the code does not
    bear out: dark as an invariant of the complete phase, the beat as the
    clamped step index, and every timeline entry complete once the run is. *)
Definition complete_implies_dark (catalog : list UnlockStep) : Prop :=
  ∀ w, reachable catalog w → phase (st w) = complete → previewMode (st w) = dark.

Definition narration_clamped (catalog : list UnlockStep) : Prop :=
  ∀ w tm, reachable catalog w → timers w = [tm] →
    phase (st (fire catalog tm w)) = running →
    scriptIndex (st (fire catalog tm w)) = clamp_beat (stepIndex (st (fire catalog tm w))).

Definition all_complete_when_complete (catalog : list UnlockStep) : Prop :=
  ∀ w index, reachable catalog w → phase (st w) = complete →
    0 ≤ index < len catalog →
    timeline_status (st w) index = timeline_complete.



(** ** The rest of the view and of the life of the page *)

(** The width of the progress bar in percent, line 235. *)
Definition progress_bar_width (s : State) : Z := Z.min (progress s) 100.

(** [DEMO_SCRIPT[scriptIndex]], line 307; [None] stands for [undefined]. *)
Definition narration_line (s : State) : option string :=
  if 0 <=? scriptIndex s then DEMO_SCRIPT !! Z.to_nat (scriptIndex s) else None.

(** The number in "Beat n", line 305. *)
Definition beat_label (s : State) : Z := scriptIndex s + 1.

(** When the page is unmounted React runs the cleanup of the sequencer
    effect (lines 114-117). *)
Definition unmount (w : World) : World := cleanup_sequence w.

(** A click on the page as rendered: the start and reset buttons are
    disabled while a run is in flight (lines 203 and 212) and then ignore
    the click. *)
Definition click (catalog : list UnlockStep) (w : World) (e : Event) : World :=
  match e with
  | StartUnlock => if start_disabled (st w) then w else step catalog w e
  | ResetUnlock => if reset_disabled (st w) then w else step catalog w e
  | _ => step catalog w e
  end.

Inductive ui_reachable (catalog : list UnlockStep) : World -> Prop :=
| ui_initial : ui_reachable catalog initial
| ui_click w e : ui_reachable catalog w -> ui_reachable catalog (click catalog w e).

(** Milliseconds that pass in a list of events. *)
Definition time_of (es : list Event) : Z :=
  foldr (λ e acc, match e with Elapse ms => Z.max 0 ms + acc | _ => acc end) 0 es.

(** Every run accounted for: each token handed out so far has completed
    once, but for the token of the run in flight, which has not yet. *)
Definition accounted (w : World) : Prop :=
  ∀ tok, 1 <= tok <= runToken (st w) →
    completions tok (log w) =
      if bool_decide (tok = runToken (st w) ∧ phase (st w) = running) then O else 1%nat.

(** Checks on the table of percentages of a catalog of [n] steps: each is
    between 0 and 90 and at most the next one; each is the exactly rounded
    ratio. *)
Definition progress_table_ok (n : nat) : bool :=
  forallb
    (λ i, (0 <=? progress_at (Z.of_nat n) (Z.of_nat i))
          && (progress_at (Z.of_nat n) (Z.of_nat i) <=? 90)
          && ((S i =? n)%nat
              || (progress_at (Z.of_nat n) (Z.of_nat i)
                  <=? progress_at (Z.of_nat n) (Z.of_nat (S i)))))
    (seq 0 n).

Definition progress_exact_ok (n : nat) : bool :=
  forallb
    (λ i, progress_at (Z.of_nat n) (Z.of_nat i) =? round_ratio_90 (Z.of_nat n) (Z.of_nat i))
    (seq 0 n).

(** The percentage of the first step of [n] is the exactly rounded ratio. *)
Definition first_progress_ok (n : nat) : bool :=
  progress_at (Z.of_nat n) 0 =? round_ratio_90 (Z.of_nat n) 0.

(** * Properties *)

(** ** Render passes, step by step *)

Section Passes.

Variable catalog : list UnlockStep.

Lemma flush_nil f w : queue w = [] -> flush catalog f w = w.
Proof. intros H. destruct f; cbn [flush]; [done|]. by rewrite H. Qed.

Lemma flush_cons f w :
  queue w <> [] -> flush catalog (S f) w = flush catalog f (commit catalog w).
Proof. intros H. cbn [flush]. destruct (queue w); [done|reflexivity]. Qed.

End Passes.

Arguments flush : simpl never.
Arguments progress_at : simpl never.
Arguments progress_of : simpl never.

Ltac wsimpl :=
  cbn [st queue now timers next_id closures cleanup log
       phase runToken previewMode scriptIndex stepIndex progress
       token cancelled timeouts handle due owner resume_at
       app fold_left apply_updates apply_update enqueue
       startUnlock resetUnlock resetSequence togglePreview previousBeat nextBeat
       deps_sequence deps_complete deps_narration
       effect_complete effect_narration andb negb] in *.

Ltac decide_deps :=
  repeat match goal with
  | |- context [bool_decide ?P] =>
      first
        [ rewrite (bool_decide_eq_true_2 P)
            by (first [reflexivity | congruence | f_equal; lia])
        | rewrite (bool_decide_eq_false_2 P)
            by (first [discriminate | congruence | intros [=]; lia | intros [=]; congruence]) ]
  end.

Lemma len_DEMO_SCRIPT : len DEMO_SCRIPT = 3.
Proof. reflexivity. Qed.

Lemma effect_narration_on s w :
  phase s = running -> 0 <= stepIndex s < 3 ->
  effect_narration s w = enqueue [setScriptIndex (stepIndex s)] w.
Proof.
  intros Hp Hi. unfold effect_narration. rewrite len_DEMO_SCRIPT.
  rewrite bool_decide_eq_true_2 by done.
  destruct (Z.leb_spec 0 (stepIndex s)); [|lia].
  destruct (Z.ltb_spec (stepIndex s) 3); [|lia]. reflexivity.
Qed.

Lemma effect_narration_off s w :
  phase s <> running \/ stepIndex s < 0 \/ 3 <= stepIndex s ->
  effect_narration s w = w.
Proof.
  intros H. unfold effect_narration. rewrite len_DEMO_SCRIPT.
  destruct (bool_decide_reflect (phase s = running)); cbn [andb]; [|done].
  destruct (Z.leb_spec 0 (stepIndex s)); cbn [andb]; [|done].
  destruct (Z.ltb_spec (stepIndex s) 3); [|done].
  destruct H as [?|[?|?]]; [done|lia|lia].
Qed.

Ltac narration_off :=
  rewrite effect_narration_off
    by (wsimpl; first [left; congruence | right; left; lia | right; right; lia]).

Ltac pass :=
  rewrite flush_cons by done; unfold commit at 1; wsimpl; decide_deps.

Lemma clearTimeout_other h tm : handle tm <> h -> clearTimeout h [tm] = [tm].
Proof.
  intros H. unfold clearTimeout. rewrite filter_cons_True by done.
  by rewrite filter_nil.
Qed.

Lemma clearTimeout_self tm : clearTimeout (handle tm) [tm] = [].
Proof.
  unfold clearTimeout. rewrite filter_cons_False by (intros H; by apply H).
  by rewrite filter_nil.
Qed.

Lemma clearTimeouts_nil hs : clearTimeouts hs [] = [].
Proof. induction hs as [|h hs IH]; [done|]. cbn. apply IH. Qed.

Lemma clearTimeouts_single hs tm :
  handle tm ∈ hs -> clearTimeouts hs [tm] = [].
Proof.
  induction hs as [|h hs IH]; intros Hin.
  - by apply elem_of_nil in Hin.
  - unfold clearTimeouts. cbn [fold_left].
    destruct (decide (handle tm = h)) as [<-|Hne].
    + rewrite clearTimeout_self. apply clearTimeouts_nil.
    + rewrite clearTimeout_other by done. apply IH.
      apply elem_of_cons in Hin as [?|?]; [done|done].
Qed.

Ltac narration_on := rewrite effect_narration_on by (wsimpl; first [done | lia]).

Section Transitions.

Variable catalog : list UnlockStep.

Lemma executeSequence_step c i w cl s :
  closures w !! c = Some cl -> cancelled cl = false -> catalog !! i = Some s ->
  executeSequence catalog c i w =
  mkWorld (st w)
    (queue w ++ [setStepIndex (Z.of_nat i); setProgress (progress_of catalog i)])
    (now w)
    (timers w ++ [mkTimer (next_id w) (now w + Z.max 0 (duration s)) c (S i)])
    (S (next_id w))
    (<[c := mkClosure (token cl) false (timeouts cl ++ [next_id w])]> (closures w))
    (cleanup w)
    (ObsProgress (token cl) (progress_of catalog i)
       :: ObsStep (token cl) (Z.of_nat i) :: log w).
Proof.
  intros Hc Hl Hs. unfold executeSequence. rewrite Hc, Hs, Hl. reflexivity.
Qed.

Lemma executeSequence_done c i w cl :
  closures w !! c = Some cl -> cancelled cl = false -> catalog !! i = None ->
  executeSequence catalog c i w =
  mkWorld (st w) (queue w ++ [setProgress 100; setPhase complete])
    (now w) (timers w) (next_id w) (closures w) (cleanup w)
    (ObsComplete (token cl) :: ObsProgress (token cl) 100 :: log w).
Proof.
  intros Hc Hl Hs. unfold executeSequence. rewrite Hc, Hs, Hl. reflexivity.
Qed.

Lemma executeSequence_cancelled c i w cl :
  closures w !! c = Some cl -> cancelled cl = true ->
  executeSequence catalog c i w = w.
Proof.
  intros Hc Hl. unfold executeSequence. rewrite Hc, Hl.
  by destruct (catalog !! i).
Qed.

Lemma start_resting p t pm si sx pr nw nid cls lg s0 :
  p <> running ->
  catalog !! 0%nat = Some s0 ->
  dispatch catalog startUnlock
    (mkWorld (mkState p t pm si sx pr) [] nw [] nid cls None lg) =
  mkWorld (mkState running (t + 1) light 0 0 (progress_of catalog 0)) [] nw
    [mkTimer (S nid) (nw + Z.max 0 (duration s0)) nid 1] (S (S nid))
    (<[nid := mkClosure (t + 1) false [S nid]]> cls) (Some nid)
    (ObsProgress (t + 1) (progress_of catalog 0) :: ObsStep (t + 1) 0 :: lg).
Proof.
  intros Hp H0.
  unfold dispatch, settle, NESTED_UPDATE_LIMIT. wsimpl.
  rewrite flush_cons by done.
  unfold commit at 1. wsimpl. decide_deps.
  narration_off.
  unfold cleanup_sequence, effect_sequence. wsimpl.
  erewrite executeSequence_step; [|apply lookup_insert_eq|done|done]. wsimpl.
  rewrite insert_insert_eq.
  rewrite flush_cons by done.
  unfold commit at 1. wsimpl. decide_deps.
  narration_on. wsimpl.
  rewrite flush_cons by done.
  unfold commit at 1. wsimpl. decide_deps.
  rewrite flush_nil by done. reflexivity.
Qed.

Lemma start_resting_empty p t pm si sx pr nw nid cls lg :
  p <> running ->
  catalog !! 0%nat = None ->
  dispatch catalog startUnlock
    (mkWorld (mkState p t pm si sx pr) [] nw [] nid cls None lg) =
  mkWorld (mkState complete (t + 1) dark 2 (-1) 100) [] nw [] (S nid)
    (<[nid := mkClosure (t + 1) true []]> cls) None
    (ObsComplete (t + 1) :: ObsProgress (t + 1) 100 :: lg).
Proof.
  intros Hp H0.
  unfold dispatch, settle, NESTED_UPDATE_LIMIT. wsimpl.
  pass. narration_off.
  unfold cleanup_sequence, effect_sequence. wsimpl.
  erewrite executeSequence_done; [|apply lookup_insert_eq|done|done]. wsimpl.
  pass. narration_off.
  unfold cleanup_sequence, effect_sequence. wsimpl.
  rewrite lookup_insert_eq. wsimpl. rewrite insert_insert_eq.
  pass. by rewrite flush_nil.
Qed.

Lemma start_running t pm si k pr nw h d c k' nid cls lg tk hs s0 :
  cls !! c = Some (mkClosure tk false hs) ->
  h ∈ hs ->
  catalog !! 0%nat = Some s0 ->
  dispatch catalog startUnlock
    (mkWorld (mkState running t pm si (Z.of_nat k) pr) [] nw
       [mkTimer h d c k'] nid cls (Some c) lg) =
  mkWorld (mkState running (t + 1) light 0 0 (progress_of catalog 0)) [] nw
    [mkTimer (S nid) (nw + Z.max 0 (duration s0)) nid 1] (S (S nid))
    (<[nid := mkClosure (t + 1) false [S nid]]>
       (<[c := mkClosure tk true hs]> cls)) (Some nid)
    (ObsProgress (t + 1) (progress_of catalog 0) :: ObsStep (t + 1) 0 :: lg).
Proof.
  intros Hc Hh H0.
  unfold dispatch, settle, NESTED_UPDATE_LIMIT. wsimpl.
  pass. narration_off.
  unfold cleanup_sequence, effect_sequence. wsimpl. rewrite Hc. wsimpl.
  rewrite clearTimeouts_single by done.
  erewrite executeSequence_step; [|apply lookup_insert_eq|done|done]. wsimpl.
  rewrite insert_insert_eq.
  pass. narration_on. wsimpl.
  pass. by rewrite flush_nil.
Qed.

Lemma reset_resting p t pm si sx pr nw nid cls lg :
  p <> running ->
  dispatch catalog resetUnlock
    (mkWorld (mkState p t pm si sx pr) [] nw [] nid cls None lg) =
  mkWorld (mkState idle t light 0 (-1) 0) [] nw [] nid cls None lg.
Proof.
  intros Hp.
  unfold dispatch, settle, NESTED_UPDATE_LIMIT. wsimpl.
  destruct p; [|done|].
  - pass. narration_off.
    destruct (bool_decide _); by rewrite flush_nil.
  - pass. narration_off.
    unfold cleanup_sequence, effect_sequence. wsimpl. by rewrite flush_nil.
Qed.

Lemma reset_running t pm si k pr nw h d c k' nid cls lg tk hs :
  cls !! c = Some (mkClosure tk false hs) ->
  h ∈ hs ->
  dispatch catalog resetUnlock
    (mkWorld (mkState running t pm si (Z.of_nat k) pr) [] nw
       [mkTimer h d c k'] nid cls (Some c) lg) =
  mkWorld (mkState idle t light 0 (-1) 0) [] nw [] nid
    (<[c := mkClosure tk true hs]> cls) None lg.
Proof.
  intros Hc Hh.
  unfold dispatch, settle, NESTED_UPDATE_LIMIT. wsimpl.
  pass. narration_off.
  unfold cleanup_sequence, effect_sequence. wsimpl. rewrite Hc. wsimpl.
  rewrite clearTimeouts_single by done.
  by rewrite flush_nil.
Qed.

(** A batch that leaves [phase], [runToken] and [stepIndex] alone runs no
    effect. *)
Lemma dispatch_quiet us w :
  queue w = [] ->
  phase (apply_updates (st w) us) = phase (st w) ->
  runToken (apply_updates (st w) us) = runToken (st w) ->
  stepIndex (apply_updates (st w) us) = stepIndex (st w) ->
  dispatch catalog us w =
  mkWorld (apply_updates (st w) us) [] (now w) (timers w) (next_id w)
    (closures w) (cleanup w) (log w).
Proof.
  intros Hq Hp Ht Hs. unfold dispatch, settle, NESTED_UPDATE_LIMIT.
  destruct us as [|u us].
  - rewrite flush_nil by (cbn; by rewrite Hq). destruct w; cbn in *. by subst.
  - rewrite flush_cons by (cbn; rewrite Hq; done).
    unfold commit. cbn [enqueue st queue now timers next_id closures cleanup log].
    rewrite Hq. cbn [app]. unfold deps_sequence, deps_complete, deps_narration.
    rewrite Hp, Ht, Hs.
    rewrite !bool_decide_eq_true_2 by done.
    by rewrite flush_nil.
Qed.

Lemma fire_next t pm si k pr nw h d c nid cls lg hs s' :
  cls !! c = Some (mkClosure t false hs) ->
  catalog !! S k = Some s' ->
  nw <= d ->
  fire catalog (mkTimer h d c (S k))
    (mkWorld (mkState running t pm si (Z.of_nat k) pr) [] nw
       [mkTimer h d c (S k)] nid cls (Some c) lg) =
  mkWorld
    (mkState running t pm
       (if Z.of_nat (S k) <? 3 then Z.of_nat (S k) else si)
       (Z.of_nat (S k)) (progress_of catalog (S k)))
    [] d [mkTimer nid (d + Z.max 0 (duration s')) c (S (S k))] (S nid)
    (<[c := mkClosure t false (hs ++ [nid])]> cls) (Some c)
    (ObsProgress t (progress_of catalog (S k)) :: ObsStep t (Z.of_nat (S k)) :: lg).
Proof.
  intros Hc Hs Hd.
  unfold fire, settle, NESTED_UPDATE_LIMIT. wsimpl.
  change (clearTimeout h [mkTimer h d c (S k)])
    with (clearTimeout (handle (mkTimer h d c (S k))) [mkTimer h d c (S k)]).
  rewrite clearTimeout_self, Z.max_r by done.
  erewrite executeSequence_step; [|exact Hc|done|exact Hs]. wsimpl.
  pass.
  destruct (Z.ltb_spec (Z.of_nat (S k)) 3).
  - narration_on. wsimpl. pass. by rewrite flush_nil.
  - narration_off. by rewrite flush_nil.
Qed.

Lemma fire_last t pm si k pr nw h d c nid cls lg hs :
  cls !! c = Some (mkClosure t false hs) ->
  catalog !! S k = None ->
  nw <= d ->
  fire catalog (mkTimer h d c (S k))
    (mkWorld (mkState running t pm si (Z.of_nat k) pr) [] nw
       [mkTimer h d c (S k)] nid cls (Some c) lg) =
  mkWorld (mkState complete t dark 2 (Z.of_nat k) 100) [] d [] nid
    (<[c := mkClosure t true hs]> cls) None
    (ObsComplete t :: ObsProgress t 100 :: lg).
Proof.
  intros Hc Hs Hd.
  unfold fire, settle, NESTED_UPDATE_LIMIT. wsimpl.
  change (clearTimeout h [mkTimer h d c (S k)])
    with (clearTimeout (handle (mkTimer h d c (S k))) [mkTimer h d c (S k)]).
  rewrite clearTimeout_self, Z.max_r by done.
  erewrite executeSequence_done; [|exact Hc|done|exact Hs]. wsimpl.
  pass. narration_off.
  unfold cleanup_sequence, effect_sequence. wsimpl. rewrite Hc. wsimpl.
  rewrite clearTimeouts_nil.
  pass. by rewrite flush_nil.
Qed.

End Transitions.

(** ** The invariant of reachable worlds *)

Section Invariant.

Variable catalog : list UnlockStep.

Local Abbreviation Inv := (Inv catalog).
Local Abbreviation Shape := (Shape catalog).

Lemma completions_fresh tok lg :
  (∀ o, o ∈ lg → obs_token o < tok) -> completions tok lg = O.
Proof.
  induction lg as [|o lg IH]; intros H; [done|].
  cbn [completions]. rewrite IH by (intros o' Ho'; apply H; by right).
  assert (obs_token o < tok) as Ho by (apply H; by left).
  destruct o; cbn in *; try done.
  destruct (Z.eqb_spec tok0 tok); [lia|done].
Qed.

Lemma Inv_shape w : Inv w -> Shape w.
Proof.
  intros [Hq Hp _ _ _ _].
  destruct w as [[p t pm si sx pr] q nw ts nid cls cu lg].
  unfold phase_inv in Hp. cbn in *. subst q.
  destruct p.
  - destruct Hp as (-> & -> & _). by constructor.
  - destruct Hp as (c & hs & k & s & h & d & -> & Hc & Hk & -> & -> & -> & Hh & Hd & _).
    by econstructor.
  - destruct Hp as (-> & -> & _). by constructor.
Qed.

Lemma Inv_initial : Inv initial.
Proof.
  split; try done.
  intros o H. by apply elem_of_nil in H.
Qed.

Lemma closures_ok_insert cls nid t cu c' cl' nid' t' cu' :
  closures_ok cls nid t cu ->
  cu = None \/ cu = Some c' ->
  (c' < nid')%nat -> (nid <= nid')%nat -> t <= t' ->
  token cl' <= t' ->
  (cu' <> Some c' -> cancelled cl' = true) ->
  closures_ok (<[c' := cl']> cls) nid' t' cu'.
Proof.
  intros Hok Hcu Hc Hn Ht Htok Hcan c cl Hl.
  destruct (decide (c = c')) as [->|Hne].
  - rewrite lookup_insert_eq in Hl. by injection Hl as <-.
  - rewrite lookup_insert_ne in Hl by done.
    destruct (Hok c cl Hl) as (? & ? & Hx).
    split; [lia|]. split; [lia|]. intros _. apply Hx.
    destruct Hcu as [->| ->]; congruence.
Qed.

Lemma lookup_head k (s : UnlockStep) :
  catalog !! k = Some s -> ∃ s0, catalog !! 0%nat = Some s0.
Proof. destruct catalog; [by rewrite lookup_nil|]. eauto. Qed.

Ltac closures_step cu0 :=
  eapply (closures_ok_insert _ _ _ cu0);
  [ first [eassumption | idtac]
  | first [by left | by right]
  | cbn; try lia | cbn; try lia | cbn; try lia | cbn; try lia
  | cbn; first [done | congruence | idtac] ].

Lemma Inv_start w : Inv w -> Inv (dispatch catalog startUnlock w).
Proof.
  intros HI. pose proof (Inv_shape w HI) as HS.
  destruct HS as [p t pm si sx pr nw nid cls lg Hp
                 |t pm si k nw h d c nid cls lg hs s Hc Hh Hk Hd];
    destruct HI as [_ Hph Hcl Hlg Hsc Htk]; cbn in Hph, Hcl, Hlg, Hsc, Htk.
  - destruct (catalog !! 0%nat) as [s0|] eqn:H0.
    + rewrite (start_resting _ _ _ _ _ _ _ _ _ _ _ s0) by done.
      split; cbn [st queue now timers next_id closures cleanup log runToken scriptIndex].
      * done.
      * unfold phase_inv. cbn.
        exists nid, [S nid], 0%nat, s0, (S nid), (nw + 0 `max` duration s0).
        rewrite lookup_insert_eq.
        repeat split; try done; [by constructor|lia|].
        apply completions_fresh. intros o Ho. specialize (Hlg o Ho). lia.
      * closures_step (@None nat).
      * intros o Ho. rewrite !elem_of_cons in Ho.
        destruct Ho as [->|[->|Ho]]; cbn; try lia. specialize (Hlg o Ho). lia.
      * rewrite len_DEMO_SCRIPT. lia.
      * lia.
    + rewrite start_resting_empty by done.
      assert (catalog = []) as Hnil by (destruct catalog; [done|discriminate]).
      split; cbn [st queue now timers next_id closures cleanup log runToken scriptIndex].
      * done.
      * unfold phase_inv. cbn. rewrite Hnil. repeat split; try done.
        rewrite Z.eqb_refl. cbn. f_equal.
        apply completions_fresh. intros o Ho. specialize (Hlg o Ho). lia.
      * closures_step (@None nat).
      * intros o Ho. rewrite !elem_of_cons in Ho.
        destruct Ho as [->|[->|Ho]]; cbn; try lia. specialize (Hlg o Ho). lia.
      * rewrite len_DEMO_SCRIPT. lia.
      * lia.
  - destruct (lookup_head _ _ Hk) as [s0 H0].
    rewrite (start_running _ _ _ _ _ _ _ _ _ _ _ _ _ _ _ _ s0 Hc Hh H0).
    pose proof (Hcl c _ Hc) as (Hlt & Hle & _). cbn in Hle.
    split; cbn [st queue now timers next_id closures cleanup log runToken scriptIndex].
    * done.
    * unfold phase_inv. cbn.
      exists nid, [S nid], 0%nat, s0, (S nid), (nw + 0 `max` duration s0).
      rewrite lookup_insert_eq.
      repeat split; try done; [by constructor|lia|].
      apply completions_fresh. intros o Ho. specialize (Hlg o Ho). lia.
    * eapply (closures_ok_insert (<[c:=_]> cls) nid t None);
        [|by left|lia|lia|lia|cbn; lia|done].
      eapply (closures_ok_insert cls nid t (Some c));
        [eassumption|by right|lia|lia|lia|cbn; lia|done].
    * intros o Ho. rewrite !elem_of_cons in Ho.
      destruct Ho as [->|[->|Ho]]; cbn; try lia. specialize (Hlg o Ho). lia.
    * rewrite len_DEMO_SCRIPT. lia.
    * lia.
Qed.

Lemma Inv_reset w : Inv w -> Inv (dispatch catalog resetUnlock w).
Proof.
  intros HI. pose proof (Inv_shape w HI) as HS.
  destruct HS as [p t pm si sx pr nw nid cls lg Hp
                 |t pm si k nw h d c nid cls lg hs s Hc Hh Hk Hd];
    destruct HI as [_ Hph Hcl Hlg Hsc Htk]; cbn in Hph, Hcl, Hlg, Hsc, Htk.
  - rewrite reset_resting by done.
    split; cbn [st queue now timers next_id closures cleanup log runToken scriptIndex];
      try done; try (rewrite len_DEMO_SCRIPT; lia).
  - rewrite (reset_running _ _ _ _ _ _ _ _ _ _ _ _ _ _ _ _ Hc Hh).
    pose proof (Hcl c _ Hc) as (Hlt & Hle & _). cbn in Hle.
    split; cbn [st queue now timers next_id closures cleanup log runToken scriptIndex];
      try done; try (rewrite len_DEMO_SCRIPT; lia).
    closures_step (Some c).
Qed.

(** Changing the preview or the narration beat keeps the invariant. *)
Lemma Inv_frame w pm' si' :
  Inv w -> 0 <= si' < 3 ->
  Inv (mkWorld
         (mkState (phase (st w)) (runToken (st w)) pm' si'
            (stepIndex (st w)) (progress (st w)))
         [] (now w) (timers w) (next_id w) (closures w) (cleanup w) (log w)).
Proof.
  intros [Hq Hph Hcl Hlg Hsc Htk] Hsi.
  split; cbn [st queue now timers next_id closures cleanup log runToken scriptIndex];
    try done.
Qed.

Lemma Inv_toggle w : Inv w -> Inv (dispatch catalog togglePreview w).
Proof.
  intros HI. rewrite dispatch_quiet; try done; [|apply HI].
  apply Inv_frame; [done|]. destruct HI as [_ _ _ _ Hsc _].
  by rewrite len_DEMO_SCRIPT in Hsc.
Qed.

Lemma Inv_previous w : Inv w -> Inv (dispatch catalog previousBeat w).
Proof.
  intros HI. rewrite dispatch_quiet; try done; [|apply HI].
  apply Inv_frame; [done|]. destruct HI as [_ _ _ _ Hsc _].
  rewrite len_DEMO_SCRIPT in *. unfold JS.rem.
  apply Z.rem_bound_pos; lia.
Qed.

Lemma Inv_next w : Inv w -> Inv (dispatch catalog nextBeat w).
Proof.
  intros HI. rewrite dispatch_quiet; try done; [|apply HI].
  apply Inv_frame; [done|]. destruct HI as [_ _ _ _ Hsc _].
  rewrite len_DEMO_SCRIPT in *. unfold JS.rem.
  apply Z.rem_bound_pos; lia.
Qed.

(** *** Timers *)

Lemma next_timer_single D tm tm' :
  next_timer D [tm] = Some tm' -> tm' = tm /\ due tm <= D.
Proof.
  unfold next_timer. cbn [earliest].
  destruct (Z.leb_spec (due tm) D); [|done]. by intros [= ->].
Qed.

Lemma next_timer_single_None D tm :
  next_timer D [tm] = None -> D < due tm.
Proof.
  unfold next_timer. cbn [earliest].
  by destruct (Z.leb_spec (due tm) D).
Qed.

Lemma fire_fired w D tm :
  Inv w -> next_timer D (timers w) = Some tm ->
  fired catalog (due tm) w (fire catalog tm w) /\ due tm <= D /\ now w <= due tm.
Proof.
  intros HI Hn. pose proof (Inv_shape w HI) as HS.
  destruct HS as [p t pm si sx pr nw nid cls lg Hp
                 |t pm si k nw h d c nid cls lg hs s Hc Hh Hk Hd];
    cbn [timers] in Hn; [done|].
  apply next_timer_single in Hn as [-> Hdue]. cbn [due] in *.
  split; [|done].
  destruct (catalog !! S k) as [s'|] eqn:Hs.
  - rewrite (fire_next _ _ _ _ _ _ _ _ _ _ _ _ _ _ s' Hc Hs Hd).
    by econstructor.
  - rewrite (fire_last _ _ _ _ _ _ _ _ _ _ _ _ _ _ Hc Hs Hd).
    by econstructor.
Qed.

Lemma Inv_fired d w w' : Inv w -> fired catalog d w w' -> Inv w'.
Proof.
  intros HI HF.
  destruct HF as [t pm si k pr nw h c nid cls lg hs s' Hc Hs
                 |t pm si k pr nw h c nid cls lg hs Hc Hs];
    destruct HI as [_ Hph Hcl Hlg Hsc Htk]; cbn in Hph, Hcl, Hlg, Hsc, Htk;
    pose proof (Hcl c _ Hc) as (Hlt & Hle & _); cbn in Hle;
    unfold phase_inv in Hph; cbn in Hph;
    destruct Hph as (c0 & hs0 & k0 & s0 & h0 & d0 & [= <-] & Hc0 & Hk0 & Hk' & _
                     & [= <- <- ] & Hh0 & Hd0 & Hcomp);
    apply Nat2Z.inj in Hk'; subst k0.
  - split; cbn [st queue now timers next_id closures cleanup log runToken scriptIndex].
    + done.
    + unfold phase_inv. cbn.
      exists c, (hs ++ [nid]), (S k), s', nid, (d + 0 `max` duration s').
      rewrite lookup_insert_eq.
      repeat split; try done; [apply elem_of_app; right; by constructor|lia].
    + closures_step (Some c).
    + intros o Ho. rewrite !elem_of_cons in Ho.
      destruct Ho as [->|[->|Ho]]; cbn; try lia. by apply Hlg.
    + rewrite len_DEMO_SCRIPT in *. destruct (Z.ltb_spec (Z.of_nat (S k)) 3); lia.
    + done.
  - split; cbn [st queue now timers next_id closures cleanup log runToken scriptIndex].
    + done.
    + unfold phase_inv. cbn. rewrite Z.eqb_refl, Hcomp.
      repeat split; try done.
      apply lookup_ge_None in Hs. apply lookup_lt_Some in Hk0.
      unfold len. lia.
    + closures_step (Some c).
    + intros o Ho. rewrite !elem_of_cons in Ho.
      destruct Ho as [->|[->|Ho]]; cbn; try lia. by apply Hlg.
    + rewrite len_DEMO_SCRIPT. lia.
    + done.
Qed.

Lemma fired_remaining d w w' :
  fired catalog d w w' -> (remaining catalog w' < remaining catalog w)%nat.
Proof.
  intros [t pm si k pr nw h c nid cls lg hs s' Hc Hs
         |t pm si k pr nw h c nid cls lg hs Hc Hs]; unfold remaining; cbn.
  - apply lookup_lt_Some in Hs. lia.
  - lia.
Qed.

Lemma ticks_Inv D w w' : Inv w -> ticks catalog D w w' -> Inv w'.
Proof.
  intros HI HT. induction HT as [w|w tm w' Hn _ IH]; [done|].
  apply IH. destruct (fire_fired w D tm HI Hn) as (HF & _).
  by eapply Inv_fired.
Qed.

Lemma Inv_at_time w D :
  Inv w -> next_timer D (timers w) = None -> Inv (at_time (Z.max (now w) D) w).
Proof.
  intros [Hq Hph Hcl Hlg Hsc Htk] Hn.
  split; cbn [at_time st queue now timers next_id closures cleanup log]; try done.
  unfold phase_inv in *. cbn [at_time st queue now timers next_id closures cleanup log].
  destruct (phase (st w)); try done.
  destruct Hph as (c & hs & k & s & h & d & ? & ? & ? & ? & ? & Ht & ? & ? & ?).
  rewrite Ht in Hn. apply next_timer_single_None in Hn. cbn in Hn.
  exists c, hs, k, s, h, d. repeat split; try done. lia.
Qed.

(** With fuel beyond the awaits still to come, [advance_to] fires every
    timer due by the deadline and then moves the clock there. *)
Lemma advance_to_ticks fuel D w :
  Inv w -> (remaining catalog w < fuel)%nat ->
  ∃ w0, ticks catalog D w w0 ∧ next_timer D (timers w0) = None ∧
        advance_to catalog fuel D w = at_time (Z.max (now w0) D) w0.
Proof.
  revert w. induction fuel as [|fuel IH]; intros w HI Hr; [lia|].
  cbn [advance_to]. destruct (next_timer D (timers w)) as [tm|] eqn:Hn.
  - destruct (fire_fired w D tm HI Hn) as (HF & _).
    destruct (IH (fire catalog tm w)) as (w0 & HT & Hn0 & Heq).
    + by eapply Inv_fired.
    + apply fired_remaining in HF. lia.
    + exists w0. split; [|done]. by econstructor.
  - exists w. split; [constructor|]. split; [done|]. reflexivity.
Qed.

Lemma advance_fuel_enough w :
  Inv w -> (remaining catalog w < advance_fuel catalog w)%nat.
Proof.
  intros HI. destruct (Inv_shape w HI); unfold remaining, advance_fuel; cbn; lia.
Qed.

Lemma advance_ticks ms w :
  Inv w ->
  ∃ w0, ticks catalog (now w + Z.max 0 ms) w w0 ∧
        next_timer (now w + Z.max 0 ms) (timers w0) = None ∧
        advance catalog ms w = at_time (Z.max (now w0) (now w + Z.max 0 ms)) w0.
Proof.
  intros HI. apply advance_to_ticks; [done|]. by apply advance_fuel_enough.
Qed.

Lemma Inv_advance ms w : Inv w -> Inv (advance catalog ms w).
Proof.
  intros HI. destruct (advance_ticks ms w HI) as (w0 & HT & Hn & ->).
  apply Inv_at_time; [|done]. by eapply ticks_Inv.
Qed.

Lemma Inv_step w e : Inv w -> Inv (step catalog w e).
Proof.
  intros HI. destruct e; cbn [step].
  - by apply Inv_start.
  - by apply Inv_reset.
  - by apply Inv_toggle.
  - by apply Inv_previous.
  - by apply Inv_next.
  - by apply Inv_advance.
Qed.

Lemma reachable_Inv w : reachable catalog w -> Inv w.
Proof.
  induction 1 as [|w e _ IH]; [apply Inv_initial|by apply Inv_step].
Qed.

Lemma run_Inv es w : Inv w -> Inv (run catalog es w).
Proof.
  revert w. induction es as [|e es IH]; intros w HI; [done|].
  cbn. apply IH. by apply Inv_step.
Qed.

Lemma run_reachable es w : reachable catalog w -> reachable catalog (run catalog es w).
Proof.
  revert w. induction es as [|e es IH]; intros w HR; [done|].
  cbn. apply IH. by constructor.
Qed.

End Invariant.

(** ** What one event changes *)

Section Facts.

Variable catalog : list UnlockStep.

Local Abbreviation Inv := (Inv catalog).
Local Abbreviation step := (step catalog).
Local Abbreviation run := (run catalog).
Local Abbreviation reachable := (reachable catalog).

Lemma st_executeSequence c i w : st (executeSequence catalog c i w) = st w.
Proof.
  unfold executeSequence. destruct (closures w !! c) as [cl|]; [|done].
  destruct (catalog !! i); by destruct (cancelled cl).
Qed.

(** A render pass commits exactly the queued updates. *)
Lemma st_commit w : st (commit catalog w) = apply_updates (st w) (queue w).
Proof.
  unfold commit.
  set (w0 := mkWorld _ _ _ _ _ _ _ _).
  assert (∀ s w1, st (effect_narration s w1) = st w1) as Hn.
  { intros s w1. unfold effect_narration. by destruct (_ && _). }
  assert (∀ s w1, st (effect_complete s w1) = st w1) as Hc.
  { intros s w1. unfold effect_complete. by destruct (phase s). }
  assert (∀ s w1, st (effect_sequence catalog s w1) = st w1) as He.
  { intros s w1. unfold effect_sequence. destruct (phase s); try done.
    cbn [st]. by rewrite st_executeSequence. }
  assert (∀ w1, st (cleanup_sequence w1) = st w1) as Hu.
  { intros w1. unfold cleanup_sequence. destruct (cleanup w1) as [c|]; [|done].
    by destruct (closures w1 !! c). }
  repeat (destruct (bool_decide _)); rewrite ?Hn, ?Hc, ?He, ?Hu; done.
Qed.

Lemma fired_facts d w w' :
  fired catalog d w w' ->
  phase (st w) = running ∧ phase (st w') <> idle ∧
  runToken (st w') = runToken (st w) ∧
  previewMode (st w') =
    (if bool_decide (phase (st w') = complete) then dark else previewMode (st w)) ∧
  stepIndex (st w) <= stepIndex (st w') ∧
  log_extends w w' ∧ now w' = d.
Proof.
  intros [t pm si k pr nw h c nid cls lg hs s' Hc Hs
         |t pm si k pr nw h c nid cls lg hs Hc Hs]; cbn.
  - repeat split; try done; try lia.
    eexists [_; _]. split; [done|]. intros o Ho.
    rewrite !elem_of_cons in Ho. destruct Ho as [->|[->|Ho]]; [done|done|].
    by apply elem_of_nil in Ho.
  - repeat split; try done; try lia.
    eexists [_; _]. split; [done|]. intros o Ho.
    rewrite !elem_of_cons in Ho. destruct Ho as [->|[->|Ho]]; [done|done|].
    by apply elem_of_nil in Ho.
Qed.

Lemma log_extends_refl w : log_extends w w.
Proof. exists []. split; [done|]. intros o Ho. by apply elem_of_nil in Ho. Qed.

Lemma log_extends_trans w1 w2 w3 :
  runToken (st w3) = runToken (st w2) ->
  log_extends w1 w2 -> log_extends w2 w3 -> log_extends w1 w3.
Proof.
  intros Ht (n1 & H1 & Hn1) (n2 & H2 & Hn2). exists (n2 ++ n1). split.
  - by rewrite H2, H1, app_assoc.
  - intros o Ho. apply elem_of_app in Ho as [Ho|Ho]; [by apply Hn2|].
    rewrite Ht. by apply Hn1.
Qed.

(** A resting world has no timer to fire. *)
Lemma ticks_resting D w w' :
  Inv w -> phase (st w) <> running -> ticks catalog D w w' -> w' = w.
Proof.
  intros HI Hp HT. destruct HT as [w|w tm w' Hn _]; [done|].
  destruct (Inv_shape _ w HI); cbn in *; done.
Qed.

Lemma ticks_facts D w w' :
  Inv w -> ticks catalog D w w' ->
  runToken (st w') = runToken (st w) ∧
  stepIndex (st w) <= stepIndex (st w') ∧
  log_extends w w' ∧
  (phase (st w') = phase (st w) ∧ previewMode (st w') = previewMode (st w)
   ∨ phase (st w) = running ∧ phase (st w') = complete ∧
     previewMode (st w') = dark ∧ scriptIndex (st w') = 2) ∧
  (now w <= D -> now w' <= D).
Proof.
  intros HI HT. induction HT as [w|w tm w' Hn HT IH].
  - repeat split; try done; try lia; [apply log_extends_refl|by left].
  - destruct (fire_fired _ w D tm HI Hn) as (HF & Hdue & _).
    pose proof (Inv_fired _ _ _ _ HI HF) as HI'.
    destruct (IH HI') as (Ht & Hs & Hl & Hp & Hnow).
    destruct (fired_facts _ _ _ HF) as (Hr & Hni & Ht' & Hpm & Hs' & Hl' & Hd).
    repeat split.
    + congruence.
    + lia.
    + eapply log_extends_trans; [exact Ht|exact Hl'|exact Hl].
    + destruct Hp as [[Hp1 Hp2]|(Hp1 & Hp2 & Hp3 & Hp4)].
      * destruct (decide (phase (st (fire catalog tm w)) = complete)) as [Hc|Hc].
        -- right. rewrite Hp1. repeat split; try done.
           ++ rewrite Hp2, Hpm. by rewrite bool_decide_eq_true_2.
           ++ assert (w' = fire catalog tm w) as ->
                by (eapply ticks_resting; [exact HI'|congruence|exact HT]).
              clear -HF Hc. destruct HF; cbn in *; done.
        -- left. rewrite Hp1, Hp2, Hpm. rewrite bool_decide_eq_false_2 by done.
           split; [|done]. rewrite Hr.
           destruct (phase (st (fire catalog tm w))); done.
      * right. done.
    + intros _. apply Hnow. lia.
Qed.

Lemma start_facts w :
  Inv w ->
  runToken (st (step w StartUnlock)) = runToken (st w) + 1 ∧
  now (step w StartUnlock) = now w ∧
  log_extends w (step w StartUnlock) ∧
  match catalog !! 0%nat with
  | Some s0 =>
      st (step w StartUnlock) =
        mkState running (runToken (st w) + 1) light 0 0 (progress_of catalog 0) ∧
      ∃ h c, timers (step w StartUnlock) =
               [mkTimer h (now w + Z.max 0 (duration s0)) c 1]
  | None =>
      st (step w StartUnlock) =
        mkState complete (runToken (st w) + 1) dark 2 (-1) 100 ∧
      timers (step w StartUnlock) = []
  end.
Proof.
  intros HI. pose proof (Inv_shape _ w HI) as HS. cbn [step].
  assert (∀ (t : Z) (a b : Obs) (lg : list Obs),
            obs_token a = t -> obs_token b = t ->
            ∃ new, a :: b :: lg = new ++ lg ∧ ∀ o, o ∈ new → obs_token o = t) as Hlog.
  { intros t a b lg Ha Hb. exists [a; b]. split; [done|]. intros o Ho.
    rewrite !elem_of_cons in Ho. destruct Ho as [->|[->|Ho]]; [done|done|].
    by apply elem_of_nil in Ho. }
  destruct HS as [p t pm si sx pr nw nid cls lg Hp
                 |t pm si k nw h d c nid cls lg hs s Hc Hh Hk Hd].
  - destruct (catalog !! 0%nat) as [s0|] eqn:H0.
    + rewrite (start_resting _ _ _ _ _ _ _ _ _ _ _ s0) by done. cbn.
      repeat split; try done; [by apply Hlog|eauto].
    + rewrite start_resting_empty by done. cbn.
      repeat split; try done. by apply Hlog.
  - destruct (lookup_head _ _ _ Hk) as [s0 H0]. rewrite H0.
    rewrite (start_running _ _ _ _ _ _ _ _ _ _ _ _ _ _ _ _ s0 Hc Hh H0). cbn.
    repeat split; try done; [by apply Hlog|eauto].
Qed.

Lemma reset_facts w :
  Inv w ->
  st (step w ResetUnlock) = mkState idle (runToken (st w)) light 0 (-1) 0 ∧
  timers (step w ResetUnlock) = [] ∧ cleanup (step w ResetUnlock) = None ∧
  log (step w ResetUnlock) = log w ∧ now (step w ResetUnlock) = now w.
Proof.
  intros HI. pose proof (Inv_shape _ w HI) as HS. cbn [step].
  destruct HS as [p t pm si sx pr nw nid cls lg Hp
                 |t pm si k nw h d c nid cls lg hs s Hc Hh Hk Hd].
  - by rewrite reset_resting.
  - by rewrite (reset_running _ _ _ _ _ _ _ _ _ _ _ _ _ _ _ _ Hc Hh).
Qed.

Lemma toggle_eq w :
  Inv w ->
  step w TogglePreview =
  mkWorld (mkState (phase (st w)) (runToken (st w)) (flip (previewMode (st w)))
             (scriptIndex (st w)) (stepIndex (st w)) (progress (st w)))
    [] (now w) (timers w) (next_id w) (closures w) (cleanup w) (log w).
Proof. intros HI. cbn [step]. rewrite dispatch_quiet; try done. apply HI. Qed.

Lemma previous_eq w :
  Inv w ->
  step w PreviousBeat =
  mkWorld (mkState (phase (st w)) (runToken (st w)) (previewMode (st w))
             (JS.rem (scriptIndex (st w) - 1 + len DEMO_SCRIPT) (len DEMO_SCRIPT))
             (stepIndex (st w)) (progress (st w)))
    [] (now w) (timers w) (next_id w) (closures w) (cleanup w) (log w).
Proof. intros HI. cbn [step]. rewrite dispatch_quiet; try done. apply HI. Qed.

Lemma next_eq w :
  Inv w ->
  step w NextBeat =
  mkWorld (mkState (phase (st w)) (runToken (st w)) (previewMode (st w))
             (JS.rem (scriptIndex (st w) + 1) (len DEMO_SCRIPT))
             (stepIndex (st w)) (progress (st w)))
    [] (now w) (timers w) (next_id w) (closures w) (cleanup w) (log w).
Proof. intros HI. cbn [step]. rewrite dispatch_quiet; try done. apply HI. Qed.

Lemma advance_facts ms w :
  Inv w ->
  runToken (st (advance catalog ms w)) = runToken (st w) ∧
  stepIndex (st w) <= stepIndex (st (advance catalog ms w)) ∧
  log_extends w (advance catalog ms w) ∧
  (phase (st (advance catalog ms w)) = phase (st w) ∧
   previewMode (st (advance catalog ms w)) = previewMode (st w)
   ∨ phase (st w) = running ∧ phase (st (advance catalog ms w)) = complete ∧
     previewMode (st (advance catalog ms w)) = dark ∧
     scriptIndex (st (advance catalog ms w)) = 2) ∧
  now (advance catalog ms w) = now w + Z.max 0 ms ∧
  next_timer (now (advance catalog ms w)) (timers (advance catalog ms w)) = None ∧
  (phase (st w) <> running ->
   advance catalog ms w = at_time (now w + Z.max 0 ms) w).
Proof.
  intros HI. destruct (advance_ticks _ ms w HI) as (w0 & HT & Hn & Heq).
  destruct (ticks_facts _ _ _ HI HT) as (Ht & Hs & Hl & Hp & Hnow).
  assert (now w0 <= now w + 0 `max` ms) as Hle by (apply Hnow; lia).
  rewrite Heq, Z.max_r by done. cbn [at_time st now timers log].
  repeat split; try done.
  intros Hp'. by rewrite (ticks_resting _ _ _ HI Hp' HT).
Qed.

End Facts.

(** ** The percentages, binary64 against exact rounding *)

Lemma first_progress_ok_128 : forallb first_progress_ok (seq 0 129) = true.
Proof. by vm_compute. Qed.

Lemma first_progress_exact n :
  (n <= 128)%nat -> progress_at (Z.of_nat n) 0 = round_ratio_90 (Z.of_nat n) 0.
Proof.
  intros Hn. pose proof first_progress_ok_128 as H. rewrite forallb_forall in H.
  specialize (H n). rewrite in_seq in H. specialize (H ltac:(lia)).
  by apply Z.eqb_eq.
Qed.

Lemma progress_exact_ok_18 : forallb progress_exact_ok (seq 0 19) = true.
Proof. by vm_compute. Qed.

Lemma progress_exact_sound n i :
  (n <= 18)%nat -> (i < n)%nat ->
  progress_at (Z.of_nat n) (Z.of_nat i) = round_ratio_90 (Z.of_nat n) (Z.of_nat i).
Proof.
  intros Hn Hi. pose proof progress_exact_ok_18 as H. rewrite forallb_forall in H.
  specialize (H n). rewrite in_seq in H. specialize (H ltac:(lia)).
  unfold progress_exact_ok in H. rewrite forallb_forall in H.
  specialize (H i). rewrite in_seq in H. specialize (H ltac:(lia)).
  by apply Z.eqb_eq.
Qed.

(** ** The sequencer, for any catalog *)

Section Claims.

Variable catalog : list UnlockStep.

Local Abbreviation Inv := (Inv catalog).
Local Abbreviation step := (step catalog).
Local Abbreviation run := (run catalog).
Local Abbreviation reachable := (reachable catalog).

Lemma next_timer_self tm : next_timer (due tm) [tm] = Some tm.
Proof. unfold next_timer. cbn [earliest]. by rewrite Z.leb_refl. Qed.

Lemma Inv_one_timer w : Inv w -> (length (timers w) <= 1)%nat.
Proof. intros HI. destruct (Inv_shape _ w HI); cbn; lia. Qed.

(** The only closure that is not cancelled is the one of the current run. *)
Lemma Inv_live_closure w c cl :
  Inv w -> closures w !! c = Some cl -> cancelled cl = false ->
  cleanup w = Some c ∧ token cl = runToken (st w) ∧ phase (st w) = running.
Proof.
  intros HI Hc Hl. pose proof (inv_closures _ _ HI c cl Hc) as (_ & _ & Hx).
  destruct (decide (cleanup w = Some c)) as [Hcu|Hcu];
    [|rewrite Hx in Hl by done; discriminate].
  split; [done|]. pose proof (inv_phase _ _ HI) as Hph. unfold phase_inv in Hph.
  destruct (phase (st w)).
  - destruct Hph as (Hn & _). congruence.
  - destruct Hph as (c0 & hs & k & s & h & d & Hcu' & Hc' & _).
    assert (c0 = c) as -> by congruence. rewrite Hc in Hc'. by injection Hc' as ->.
  - destruct Hph as (Hn & _). congruence.
Qed.

Lemma Inv_timer_owner w tm :
  Inv w -> tm ∈ timers w ->
  ∃ cl, closures w !! owner tm = Some cl ∧ token cl = runToken (st w) ∧
        cancelled cl = false ∧ cleanup w = Some (owner tm).
Proof.
  intros HI Hin. destruct (Inv_shape _ w HI) as [| t pm si k nw h d c nid cls lg hs s Hc];
    cbn in *; [by apply elem_of_nil in Hin|].
  apply list_elem_of_singleton in Hin as ->. cbn. eauto.
Qed.

Lemma step_log w e : Inv w -> log_extends w (step w e).
Proof.
  intros HI. destruct e.
  - by apply start_facts.
  - destruct (reset_facts _ w HI) as (_ & _ & _ & Hl & _).
    exists []. split; [done|]. intros o Ho. by apply elem_of_nil in Ho.
  - rewrite toggle_eq by done. apply (log_extends_refl w).
  - rewrite previous_eq by done. apply (log_extends_refl w).
  - rewrite next_eq by done. apply (log_extends_refl w).
  - by apply advance_facts.
Qed.

Lemma step_token w e :
  Inv w ->
  runToken (st (step w e)) =
    if is_start e then runToken (st w) + 1 else runToken (st w).
Proof.
  intros HI. destruct e; cbn [is_start].
  - by apply start_facts.
  - destruct (reset_facts _ w HI) as (-> & _). done.
  - by rewrite toggle_eq.
  - by rewrite previous_eq.
  - by rewrite next_eq.
  - by apply advance_facts.
Qed.

Lemma run_log es w :
  Inv w ->
  runToken (st w) <= runToken (st (run es w)) ∧
  ∃ new, log (run es w) = new ++ log w ∧
         ∀ o, o ∈ new → runToken (st w) <= obs_token o.
Proof.
  revert w. induction es as [|e es IH]; intros w HI.
  - split; [done|]. exists []. split; [done|]. intros o Ho. by apply elem_of_nil in Ho.
  - change (run (e :: es) w) with (run es (step w e)).
    pose proof (Inv_step _ w e HI) as HI'.
    destruct (IH _ HI') as (Ht & new & Hl & Hn).
    destruct (step_log w e HI) as (new0 & Hl0 & Hn0).
    pose proof (step_token w e HI) as Hte.
    assert (runToken (st w) <= runToken (st (step w e))) as Hle
      by (rewrite Hte; destruct (is_start e); lia).
    split; [lia|].
    exists (new ++ new0). split.
    + by rewrite Hl, Hl0, app_assoc.
    + intros o Ho. apply elem_of_app in Ho as [Ho|Ho].
      * specialize (Hn o Ho). lia.
      * rewrite (Hn0 o Ho). done.
Qed.

(** C10: resetUnlock leaves the run token unchanged; of all the events only
    startUnlock changes it, and it adds exactly one, so that the token
    grows strictly with every start and is constant otherwise. *)
Theorem runToken_changes_only_on_start w e :
  reachable w ->
  runToken (st (step w ResetUnlock)) = runToken (st w) ∧
  runToken (st (step w StartUnlock)) = runToken (st w) + 1 ∧
  runToken (st (step w e)) =
    (if is_start e then runToken (st w) + 1 else runToken (st w)).
Proof.
  intros HR. apply reachable_Inv in HR.
  repeat split; by rewrite step_token.
Qed.

(** C9: on the first render after startUnlock, called when no run is in
    flight, the sequencer is back at (-1, 0), the phase is running, the
    preview light, the narration at beat 0 and the run token one higher;
    the sequencer that this render starts at once shows step 0 with
    progress round((1 / (N + 1)) * 90), which the binary64 computation of
    the code and exact rounding agree on, and arms the timer of step 0. *)
Theorem startUnlock_starts_the_sequencer w :
  reachable w -> phase (st w) <> running -> catalog <> [] ->
  (length catalog <= 128)%nat ->
  st (commit catalog (enqueue startUnlock w)) =
    mkState running (runToken (st w) + 1) light 0 (-1) 0 ∧
  st (step w StartUnlock) =
    mkState running (runToken (st w) + 1) light 0 0 (round_ratio_90 (len catalog) 0) ∧
  progress_at (len catalog) 0 = round_ratio_90 (len catalog) 0 ∧
  log (step w StartUnlock) =
    ObsProgress (runToken (st w) + 1) (round_ratio_90 (len catalog) 0)
      :: ObsStep (runToken (st w) + 1) 0 :: log w ∧
  ∃ s0 h c, catalog !! 0%nat = Some s0 ∧
            timers (step w StartUnlock) =
              [mkTimer h (now w + Z.max 0 (duration s0)) c 1].
Proof.
  intros HR Hp Hne Hlen. apply reachable_Inv in HR.
  pose proof (first_progress_exact (length catalog) Hlen) as Hexact.
  change (Z.of_nat (length catalog)) with (len catalog) in Hexact.
  split.
  { rewrite st_commit. cbn [enqueue queue st]. by rewrite (inv_queue _ _ HR). }
  rewrite <- Hexact.
  destruct (Inv_shape _ w HR) as [p t pm si sx pr nw nid cls lg Hp'|]; [|done].
  destruct catalog as [|s0 rest] eqn:Hcat; [done|]. rewrite <- Hcat. cbn [step].
  rewrite (start_resting catalog _ _ _ _ _ _ _ _ _ _ s0) by (by rewrite ?Hcat).
  cbn. repeat split. exists s0. rewrite Hcat. eauto.
Qed.

Lemma idle_step w e :
  Inv w -> phase (st w) = idle -> is_start e = false ->
  phase (st (step w e)) = idle ∧ log (step w e) = log w.
Proof.
  intros HI Hp He. destruct e; try done.
  - destruct (reset_facts _ w HI) as (-> & _ & _ & -> & _). done.
  - by rewrite toggle_eq.
  - by rewrite previous_eq.
  - by rewrite next_eq.
  - destruct (advance_facts _ ms w HI) as (_ & _ & _ & _ & _ & _ & Heq).
    cbn [step]. rewrite Heq by congruence. done.
Qed.

Lemma idle_run es w :
  Inv w -> phase (st w) = idle -> Forall (λ e, is_start e = false) es ->
  phase (st (run es w)) = idle ∧ log (run es w) = log w.
Proof.
  revert w. induction es as [|e es IH]; intros w HI Hp Hes; [done|].
  apply Forall_cons in Hes as [He Hes].
  change (run (e :: es) w) with (run es (step w e)).
  destruct (idle_step w e HI Hp He) as (Hp' & Hl).
  destruct (IH (step w e)) as (? & ?); [by apply Inv_step|done|done|].
  split; [done|congruence].
Qed.

(** C2: resetUnlock, called in any phase, leaves the phase idle, the
    preview light, the narration at beat 0 and the sequencer at (-1, 0);
    the run that was in flight is cancelled: no timer is pending, every
    closure is cancelled, so that resuming any of them does nothing, and
    until the next start the sequencer makes no call and the state of the
    sequencer does not move, whatever else happens and however much time
    passes. *)
Theorem resetUnlock_cancels_the_run w :
  reachable w ->
  st (step w ResetUnlock) = mkState idle (runToken (st w)) light 0 (-1) 0 ∧
  timers (step w ResetUnlock) = [] ∧
  (∀ c cl i, closures (step w ResetUnlock) !! c = Some cl →
     cancelled cl = true ∧
     executeSequence catalog c i (step w ResetUnlock) = step w ResetUnlock) ∧
  (∀ es, Forall (λ e, is_start e = false) es →
     log (run es (step w ResetUnlock)) = log w ∧
     timers (run es (step w ResetUnlock)) = [] ∧
     phase (st (run es (step w ResetUnlock))) = idle ∧
     stepIndex (st (run es (step w ResetUnlock))) = -1 ∧
     progress (st (run es (step w ResetUnlock))) = 0).
Proof.
  intros HR. apply reachable_Inv in HR.
  pose proof (Inv_step _ w ResetUnlock HR) as HI'.
  destruct (reset_facts _ w HR) as (Hst & Ht & Hcu & Hl & _).
  repeat split; try done.
  - pose proof (inv_closures _ _ HI' c cl H) as (_ & _ & Hx).
    apply Hx. rewrite Hcu. done.
  - eapply executeSequence_cancelled; [done|].
    pose proof (inv_closures _ _ HI' c cl H) as (_ & _ & Hx).
    apply Hx. rewrite Hcu. done.
  - destruct (idle_run es _ HI') as (_ & ->); [by rewrite Hst|done|done].
  - destruct (idle_run es _ HI') as (Hp & _); [by rewrite Hst|done|].
    pose proof (inv_phase _ _ (run_Inv _ es _ HI')) as Hph.
    unfold phase_inv in Hph. rewrite Hp in Hph. apply Hph.
  - by destruct (idle_run es _ HI') as (Hp & _); [by rewrite Hst|done|].
  - destruct (idle_run es _ HI') as (Hp & _); [by rewrite Hst|done|].
    pose proof (inv_phase _ _ (run_Inv _ es _ HI')) as Hph.
    unfold phase_inv in Hph. rewrite Hp in Hph. apply Hph.
  - destruct (idle_run es _ HI') as (Hp & _); [by rewrite Hst|done|].
    pose proof (inv_phase _ _ (run_Inv _ es _ HI')) as Hph.
    unfold phase_inv in Hph. rewrite Hp in Hph. apply Hph.
Qed.

(** C3: when a new run is started, whatever the phase, the closure of
    every earlier run is cancelled, so that resuming it does nothing, and
    the pending timer belongs to the new run; from then on every call the
    sequencer makes is attributed to a run token above the old one; and
    at any time at most one timer is pending and at most one closure is
    live. *)
Theorem new_run_invalidates_the_old w es :
  reachable w ->
  (∀ c cl i, closures (step w StartUnlock) !! c = Some cl →
     token cl <= runToken (st w) →
     cancelled cl = true ∧
     executeSequence catalog c i (step w StartUnlock) = step w StartUnlock) ∧
  (∀ tm, tm ∈ timers (step w StartUnlock) →
     ∃ cl, closures (step w StartUnlock) !! owner tm = Some cl ∧
           token cl = runToken (st w) + 1) ∧
  (∀ o, o ∈ log w → obs_token o <= runToken (st w)) ∧
  (∃ new, log (run es (step w StartUnlock)) = new ++ log w ∧
          ∀ o, o ∈ new → runToken (st w) < obs_token o) ∧
  (length (timers (run es (step w StartUnlock))) <= 1)%nat ∧
  (∀ c1 c2 cl1 cl2,
     closures (run es (step w StartUnlock)) !! c1 = Some cl1 →
     closures (run es (step w StartUnlock)) !! c2 = Some cl2 →
     cancelled cl1 = false → cancelled cl2 = false → c1 = c2).
Proof.
  intros HR. apply reachable_Inv in HR.
  pose proof (Inv_step _ w StartUnlock HR) as HI1.
  pose proof (run_Inv _ es _ HI1) as HI2.
  pose proof (step_token w StartUnlock HR) as Ht. cbn [is_start] in Ht.
  assert (∀ c cl, closures (step w StartUnlock) !! c = Some cl →
            token cl <= runToken (st w) → cancelled cl = true) as Hold.
  { intros c cl Hc Htok. destruct (cancelled cl) eqn:Hl; [done|].
    destruct (Inv_live_closure _ c cl HI1 Hc Hl) as (_ & Htk & _). lia. }
  split; [|split; [|split; [|split; [|split]]]].
  - intros c cl i Hc Htok. split; [by eapply Hold|].
    eapply executeSequence_cancelled; [done|]. by eapply Hold.
  - intros tm Hin. destruct (Inv_timer_owner _ tm HI1 Hin) as (cl & Hc & Htk & _).
    exists cl. split; [done|]. by rewrite Htk, Ht.
  - apply (inv_log _ _ HR).
  - destruct (run_log es _ HI1) as (_ & new & Hl & Hn).
    destruct (step_log w StartUnlock HR) as (new0 & Hl0 & Hn0).
    exists (new ++ new0). split; [by rewrite Hl, Hl0, app_assoc|].
    intros o Ho. apply elem_of_app in Ho as [Ho|Ho].
    + specialize (Hn o Ho). lia.
    + rewrite (Hn0 o Ho). lia.
  - by apply Inv_one_timer.
  - intros c1 c2 cl1 cl2 H1 H2 Hl1 Hl2.
    destruct (Inv_live_closure _ c1 cl1 HI2 H1 Hl1) as (Hc1 & _).
    destruct (Inv_live_closure _ c2 cl2 HI2 H2 Hl2) as (Hc2 & _). congruence.
Qed.

(** C6, as the code has it: the event that completes a run leaves the
    preview dark; a later togglePreview keeps the phase complete and flips
    the preview, so that dark is where the complete phase starts, not an
    invariant of it. *)
Theorem completion_sets_dark_once w e :
  reachable w ->
  (phase (st w) <> complete -> phase (st (step w e)) = complete ->
   previewMode (st (step w e)) = dark) ∧
  (phase (st w) = complete ->
   phase (st (step w TogglePreview)) = complete ∧
   previewMode (st (step w TogglePreview)) = flip (previewMode (st w))).
Proof.
  intros HR. apply reachable_Inv in HR. split.
  - intros Hp Hp'. destruct e.
    + destruct (start_facts _ w HR) as (_ & _ & _ & Hm).
      destruct (catalog !! 0%nat).
      * destruct Hm as (Hst & _). rewrite Hst in Hp'. done.
      * destruct Hm as (Hst & _). by rewrite Hst.
    + destruct (reset_facts _ w HR) as (Hst & _). rewrite Hst in Hp'. done.
    + rewrite toggle_eq in Hp' by done. done.
    + rewrite previous_eq in Hp' by done. done.
    + rewrite next_eq in Hp' by done. done.
    + destruct (advance_facts _ ms w HR) as (_ & _ & _ & Hd & _).
      destruct Hd as [[Hd _]|(_ & _ & Hd & _)]; [|done].
      cbn [step] in Hp'. congruence.
  - intros Hp. by rewrite toggle_eq.
Qed.

(** C7, as the code has it: when the pending timer fires and the run goes
    on, the step index grows by one, and the narration beat becomes that
    index if the script has such a beat and is left as it was otherwise. *)
Theorem narration_follows_step_within_script w tm :
  reachable w -> timers w = [tm] ->
  phase (st (fire catalog tm w)) = running ->
  stepIndex (st (fire catalog tm w)) = stepIndex (st w) + 1 ∧
  scriptIndex (st (fire catalog tm w)) =
    (if stepIndex (st (fire catalog tm w)) <? len DEMO_SCRIPT
     then stepIndex (st (fire catalog tm w))
     else scriptIndex (st w)).
Proof.
  intros HR Htm Hp. apply reachable_Inv in HR.
  destruct (fire_fired _ w (due tm) tm HR) as (HF & _).
  { rewrite Htm. apply next_timer_self. }
  revert Hp. destruct HF; cbn; [|done]. intros _. split; [lia|].
  rewrite len_DEMO_SCRIPT. done.
Qed.

(** C8, what the view shows once the run is complete: the entry of the
    last step, the one at the current step index, is shown as active and
    every entry before it as complete. *)
Theorem timeline_when_complete w index :
  reachable w -> phase (st w) = complete ->
  0 <= index < len catalog ->
  stepIndex (st w) = len catalog - 1 ∧
  timeline_status (st w) index =
    (if index =? len catalog - 1 then timeline_active else timeline_complete).
Proof.
  intros HR Hp Hi. apply reachable_Inv in HR.
  pose proof (inv_phase _ _ HR) as Hph. unfold phase_inv in Hph. rewrite Hp in Hph.
  destruct Hph as (_ & _ & Hs & _). split; [done|].
  unfold timeline_status. rewrite Hs.
  destruct (Z.ltb_spec index (len catalog - 1)).
  - destruct (Z.eqb_spec index (len catalog - 1)); [lia|done].
  - destruct (Z.eqb_spec index (len catalog - 1)); [done|lia].
Qed.

End Claims.

(** ** Keeping time *)

Lemma elapsed_until_0 l : elapsed_until l 0 = 0.
Proof. reflexivity. Qed.

Lemma elapsed_until_S l k s :
  l !! k = Some s -> elapsed_until l (S k) = elapsed_until l k + Z.max 0 (duration s).
Proof.
  revert k. induction l as [|a l IH]; intros k Hk; [by rewrite lookup_nil in Hk|].
  destruct k as [|k].
  - injection Hk as ->. unfold elapsed_until. cbn [firstn foldr].
    change (take 0 l) with (@nil UnlockStep). cbn [foldr]. lia.
  - cbn in Hk. specialize (IH k Hk). unfold elapsed_until in *.
    cbn [firstn foldr] in *. lia.
Qed.

Lemma elapsed_until_beyond l k :
  l !! k = None -> elapsed_until l (S k) = elapsed_until l k.
Proof.
  intros Hk. apply lookup_ge_None in Hk. unfold elapsed_until.
  by rewrite !take_ge by lia.
Qed.

Lemma elapsed_until_step l k : elapsed_until l k <= elapsed_until l (S k).
Proof.
  destruct (l !! k) as [s|] eqn:Hk.
  - rewrite (elapsed_until_S l k s Hk). lia.
  - by rewrite elapsed_until_beyond.
Qed.

Lemma elapsed_until_mono l i j :
  (i <= j)%nat -> elapsed_until l i <= elapsed_until l j.
Proof.
  induction 1 as [|j _ IH]; [done|].
  pose proof (elapsed_until_step l j). lia.
Qed.

Lemma elapsed_until_total l :
  Forall (λ s, 0 < duration s) l ->
  elapsed_until l (length l) = total_duration l.
Proof.
  unfold elapsed_until, total_duration. rewrite firstn_all.
  induction 1 as [|s l Hs _ IH]; [done|]. cbn [foldr]. lia.
Qed.

Section Timing.

Variable catalog : list UnlockStep.

Local Abbreviation Inv := (Inv catalog).
Local Abbreviation step := (step catalog).
Local Abbreviation run := (run catalog).
Local Abbreviation reachable := (reachable catalog).
Local Abbreviation scheduled := (on_schedule catalog).
Local Abbreviation elapsed := (elapsed_until catalog).

Lemma start_schedule w : Inv w -> scheduled (now w) (step w StartUnlock).
Proof.
  intros HI. destruct (start_facts _ w HI) as (_ & Hnow & _ & Hm).
  unfold on_schedule. destruct (catalog !! 0%nat) as [s0|] eqn:H0.
  - destruct Hm as (-> & h & c & ->). cbn [phase stepIndex].
    exists 0%nat. rewrite Hnow, elapsed_until_0.
    split; [done|]. split; [lia|]. intros tm Htm.
    apply list_elem_of_singleton in Htm as ->. cbn [due].
    rewrite (elapsed_until_S _ _ _ H0), elapsed_until_0. lia.
  - destruct Hm as (-> & _). cbn [phase]. rewrite Hnow.
    apply lookup_ge_None in H0.
    assert (length catalog = 0%nat) as -> by lia. rewrite elapsed_until_0. lia.
Qed.

Lemma fired_schedule t0 d w w' :
  Inv w -> fired catalog d w w' -> scheduled t0 w -> scheduled t0 w'.
Proof.
  intros HI HF. pose proof (inv_phase _ _ HI) as Hph. revert Hph.
  unfold on_schedule, phase_inv.
  destruct HF as [t pm si k pr nw h c nid cls lg hs s' Hc Hs
                 |t pm si k pr nw h c nid cls lg hs Hc Hs]; cbn;
    intros (c0 & hs0 & k0 & s0 & h0 & d0 & _ & _ & Hk0 & Hk' & _)
           (k1 & Hk1 & Hnow & Hdue);
    apply Nat2Z.inj in Hk'; apply Nat2Z.inj in Hk1; subst k0 k1;
    specialize (Hdue _ ltac:(by constructor)); cbn in Hdue.
  - exists (S k). split; [done|]. split; [lia|].
    intros tm Htm. apply list_elem_of_singleton in Htm as ->. cbn.
    rewrite (elapsed_until_S _ (S k) s' Hs). lia.
  - apply lookup_ge_None in Hs. apply lookup_lt_Some in Hk0.
    assert (length catalog = S k) as -> by lia. lia.
Qed.

Lemma ticks_schedule t0 D w w' :
  Inv w -> ticks catalog D w w' -> scheduled t0 w -> scheduled t0 w'.
Proof.
  intros HI HT. induction HT as [w|w tm w' Hn HT IH]; [done|]. intros Hs.
  destruct (fire_fired _ w D tm HI Hn) as (HF & _).
  apply IH; [by eapply Inv_fired|by eapply fired_schedule].
Qed.

Lemma advance_schedule t0 ms w :
  Inv w -> scheduled t0 w -> scheduled t0 (advance catalog ms w).
Proof.
  intros HI Hs. destruct (advance_ticks _ ms w HI) as (w0 & HT & Hn & ->).
  pose proof (ticks_schedule t0 _ _ _ HI HT Hs) as Hs0.
  unfold on_schedule in *. cbn [at_time st now timers].
  destruct (phase (st w0)); [done| |lia].
  destruct Hs0 as (k & ? & ? & ?). exists k. repeat split; try done. lia.
Qed.

(** Where a run that keeps time stands once nothing more is due. *)
Lemma schedule_position t0 w :
  Inv w -> scheduled t0 w -> next_timer (now w) (timers w) = None ->
  match phase (st w) with
  | running =>
      ∃ k, (k < length catalog)%nat ∧ stepIndex (st w) = Z.of_nat k ∧
           progress (st w) = progress_of catalog k ∧
           t0 + elapsed k <= now w < t0 + elapsed (S k)
  | complete => t0 + elapsed (length catalog) <= now w
  | idle => True
  end.
Proof.
  intros HI Hs Hn. pose proof (inv_phase _ _ HI) as Hph. revert Hph Hs.
  unfold phase_inv, on_schedule. destruct (phase (st w)); try done.
  intros (c & hs & k & s & h & d & _ & _ & Hk & Hk' & Hpr & Ht & _) (k1 & Hk1 & Hnow & Hdue).
  assert (k1 = k) as -> by (apply Nat2Z.inj; congruence).
  rewrite Ht in Hn, Hdue. apply next_timer_single_None in Hn. cbn in Hn.
  specialize (Hdue _ ltac:(by constructor)). cbn in Hdue.
  exists k. apply lookup_lt_Some in Hk. repeat split; try done; lia.
Qed.

Hypothesis positive_durations : Forall (λ s, 0 < duration s) catalog.

(** The step on show [ms] milliseconds after a start. *)
Lemma step_after_start w ms k :
  Inv w -> (k < length catalog)%nat ->
  elapsed k <= ms < elapsed (S k) ->
  phase (st (advance catalog ms (step w StartUnlock))) = running ∧
  stepIndex (st (advance catalog ms (step w StartUnlock))) = Z.of_nat k ∧
  progress (st (advance catalog ms (step w StartUnlock))) = progress_of catalog k.
Proof.
  intros HI Hk Hms.
  pose proof (Inv_step _ w StartUnlock HI) as HI1.
  pose proof (Inv_advance _ ms _ HI1) as HI2.
  pose proof (advance_schedule (now w) ms _ HI1 (start_schedule w HI)) as Hs.
  destruct (advance_facts _ ms _ HI1) as (_ & _ & _ & Hp & Hnow & Hn & _).
  destruct (start_facts _ w HI) as (_ & Hnow1 & _ & Hm).
  pose proof (elapsed_until_mono catalog 0 k ltac:(lia)) as H0k.
  rewrite elapsed_until_0 in H0k.
  assert (now (advance catalog ms (step w StartUnlock)) = now w + ms) as Hnow'
    by (rewrite Hnow, Hnow1; lia).
  pose proof (schedule_position _ _ HI2 Hs Hn) as Hpos. rewrite Hnow' in Hpos.
  destruct (lookup_lt_is_Some_2 catalog 0 ltac:(lia)) as [s0 H0].
  rewrite H0 in Hm. destruct Hm as (Hst & _).
  destruct (phase (st (advance catalog ms (step w StartUnlock)))) eqn:Hph.
  - destruct Hp as [[Hp _]|(_ & Hp & _)]; [|done]. by rewrite Hst in Hp.
  - destruct Hpos as (k' & Hk' & Hsi & Hpr & Hlo & Hhi).
    assert (k' = k) as ->; [|done].
    destruct (Nat.lt_trichotomy k' k) as [Hlt|[->|Hgt]]; [|done|].
    + pose proof (elapsed_until_mono catalog (S k') k ltac:(lia)). lia.
    + pose proof (elapsed_until_mono catalog (S k) k' ltac:(lia)). lia.
  - pose proof (elapsed_until_mono catalog (S k) (length catalog) ltac:(lia)). lia.
Qed.

Lemma waits_schedule t0 waits w :
  Inv w -> scheduled t0 w -> phase (st w) <> idle ->
  (phase (st w) = complete -> previewMode (st w) = dark ∧ scriptIndex (st w) = 2) ->
  Inv (run (Elapse <$> waits) w) ∧
  scheduled t0 (run (Elapse <$> waits) w) ∧
  phase (st (run (Elapse <$> waits) w)) <> idle ∧
  (phase (st (run (Elapse <$> waits) w)) = complete ->
   previewMode (st (run (Elapse <$> waits) w)) = dark ∧
   scriptIndex (st (run (Elapse <$> waits) w)) = 2) ∧
  (next_timer (now w) (timers w) = None ->
   next_timer (now (run (Elapse <$> waits) w)) (timers (run (Elapse <$> waits) w)) = None) ∧
  now (run (Elapse <$> waits) w) = now w + time_passed waits ∧
  runToken (st (run (Elapse <$> waits) w)) = runToken (st w).
Proof.
  revert w. induction waits as [|ms waits IH]; intros w HI Hs Hp Hc.
  - change (run (Elapse <$> []) w) with w. change (time_passed []) with 0.
    split_and!; try done; lia.
  - change (run (Elapse <$> ms :: waits) w)
      with (run (Elapse <$> waits) (step w (Elapse ms))).
    destruct (advance_facts _ ms w HI) as (Ht & _ & _ & Hd & Hnow & Hn & Heq).
    destruct (IH (step w (Elapse ms))) as (H1 & H2 & H3 & H4 & H5 & H6 & H7).
    + by apply Inv_step.
    + by apply advance_schedule.
    + cbn [step]. destruct Hd as [[-> _]|(_ & -> & _)]; done.
    + cbn [step]. intros Hc'. destruct Hd as [[Hd1 Hd2]|(_ & _ & ? & ?)]; [|done].
      rewrite Hd1 in Hc'. destruct (Hc Hc') as (Hpm & Hsi). split; [congruence|].
      rewrite Heq by congruence. done.
    + change (step w (Elapse ms)) with (advance catalog ms w) in *.
      split_and!; try done.
      * intros _. apply H5. exact Hn.
      * rewrite H6, Hnow.
        change (time_passed (ms :: waits)) with (Z.max 0 ms + time_passed waits). lia.
      * congruence.
Qed.

(** A run left alone for the sum of the durations is over. *)
Lemma run_over w waits :
  Inv w -> total_duration catalog <= time_passed waits ->
  phase (st (run (Elapse <$> waits) (step w StartUnlock))) = complete ∧
  previewMode (st (run (Elapse <$> waits) (step w StartUnlock))) = dark ∧
  scriptIndex (st (run (Elapse <$> waits) (step w StartUnlock))) = 2 ∧
  runToken (st (run (Elapse <$> waits) (step w StartUnlock))) = runToken (st w) + 1.
Proof.
  intros HI Hlong.
  pose proof (Inv_step _ w StartUnlock HI) as HI1.
  destruct (start_facts _ w HI) as (Ht1 & Hnow1 & _ & Hm).
  assert (phase (st (step w StartUnlock)) <> idle ∧
          (phase (st (step w StartUnlock)) = complete ->
           previewMode (st (step w StartUnlock)) = dark ∧
           scriptIndex (st (step w StartUnlock)) = 2) ∧
          next_timer (now (step w StartUnlock)) (timers (step w StartUnlock)) = None)
    as (Hp1 & Hc1 & Hn1).
  { destruct (catalog !! 0%nat) as [s0|] eqn:H0.
    - destruct Hm as (Hst & h & c & Htm). rewrite Hst, Htm, Hnow1. cbn.
      repeat split; try done.
      assert (0 < duration s0) as Hd.
      { rewrite Forall_forall in positive_durations. apply positive_durations.
        by eapply list_elem_of_lookup_2. }
      unfold next_timer. cbn. destruct (Z.leb_spec (now w + 0 `max` duration s0) (now w)); [lia|done].
    - destruct Hm as (Hst & Htm). rewrite Hst, Htm. cbn. done. }
  destruct (waits_schedule (now w) waits _ HI1 (start_schedule w HI) Hp1 Hc1)
    as (HI2 & Hs2 & Hp2 & Hc2 & Hn2 & Hnow2 & Ht2).
  specialize (Hn2 Hn1).
  pose proof (schedule_position _ _ HI2 Hs2 Hn2) as Hpos.
  rewrite Hnow2, Hnow1 in Hpos.
  destruct (phase (st (run (Elapse <$> waits) (step w StartUnlock)))) eqn:Hph.
  - done.
  - destruct Hpos as (k & Hk & _ & _ & _ & Hhi).
    pose proof (elapsed_until_mono catalog (S k) (length catalog) ltac:(lia)).
    rewrite (elapsed_until_total _ positive_durations) in *. lia.
  - destruct (Hc2 eq_refl) as (? & ?). repeat split; try done. congruence.
Qed.

(** C1: start a run, let the durations of all the steps pass in any
    number of waits, and the phase is complete, the preview dark, the
    progress 100, the step index that of the last step and the narration
    at its last beat; the run, labelled by the new token, has called the
    completion callback exactly once, and nothing had called it for that
    token before. *)
Theorem run_completes_once w waits :
  reachable w ->
  total_duration catalog <= time_passed waits ->
  phase (st (run (Elapse <$> waits) (step w StartUnlock))) = complete ∧
  previewMode (st (run (Elapse <$> waits) (step w StartUnlock))) = dark ∧
  progress (st (run (Elapse <$> waits) (step w StartUnlock))) = 100 ∧
  stepIndex (st (run (Elapse <$> waits) (step w StartUnlock))) = len catalog - 1 ∧
  scriptIndex (st (run (Elapse <$> waits) (step w StartUnlock))) = len DEMO_SCRIPT - 1 ∧
  completions (runToken (st w) + 1) (log w) = 0%nat ∧
  completions (runToken (st w) + 1)
    (log (run (Elapse <$> waits) (step w StartUnlock))) = 1%nat.
Proof.
  intros HR Hlong. apply reachable_Inv in HR.
  destruct (run_over w waits HR Hlong) as (Hp & Hpm & Hsi & Ht).
  pose proof (run_Inv _ (Elapse <$> waits) _ (Inv_step _ w StartUnlock HR)) as HI.
  pose proof (inv_phase _ _ HI) as Hph. unfold phase_inv in Hph.
  rewrite Hp, Ht in Hph. destruct Hph as (_ & _ & Hs & Hpr & Hc).
  split_and!; try done.
  apply completions_fresh. intros o Ho. pose proof (inv_log _ _ HR o Ho). lia.
Qed.

End Timing.

(** ** Progress within a run *)

Section Progress.

Variable catalog : list UnlockStep.

Local Abbreviation Inv := (Inv catalog).
Local Abbreviation step := (step catalog).

(** The percentages of the steps grow with the step and stay within the
    90 that the sequencer leaves to the steps. *)
Hypothesis progress_table :
  ∀ i j, (i <= j)%nat -> (j < length catalog)%nat ->
    0 <= progress_of catalog i <= progress_of catalog j ∧ progress_of catalog j <= 90.

Lemma progress_range w :
  Inv w ->
  (phase (st w) <> complete -> 0 <= progress (st w) <= 90) ∧
  (phase (st w) = complete -> progress (st w) = 100).
Proof.
  intros HI. pose proof (inv_phase _ _ HI) as Hph. unfold phase_inv in Hph.
  destruct (phase (st w)).
  - destruct Hph as (_ & _ & _ & ->). split; [lia|done].
  - destruct Hph as (c & hs & k & s & h & d & _ & _ & Hk & _ & -> & _).
    apply lookup_lt_Some in Hk. destruct (progress_table k k); [lia|done|].
    split; [lia|done].
  - destruct Hph as (_ & _ & _ & -> & _). split; [done|done].
Qed.

Lemma within_run_monotone w e :
  Inv w -> is_start e = false -> is_reset e = false ->
  runToken (st (step w e)) = runToken (st w) ∧
  stepIndex (st w) <= stepIndex (st (step w e)) ∧
  progress (st w) <= progress (st (step w e)).
Proof.
  intros HI Hs Hr. destruct e; try done.
  - by rewrite toggle_eq.
  - by rewrite previous_eq.
  - by rewrite next_eq.
  - destruct (advance_facts _ ms w HI) as (Ht & Hk & _ & Hd & _).
    cbn [step]. repeat split; try done.
    pose proof (Inv_advance _ ms w HI) as HI'.
    pose proof (inv_phase _ _ HI) as Hph. pose proof (inv_phase _ _ HI') as Hph'.
    destruct (progress_range _ HI') as (Hlo' & Hhi').
    destruct (progress_range _ HI) as (Hlo & Hhi).
    unfold phase_inv in Hph, Hph'.
    destruct Hd as [[Hd _]|(Hd1 & Hd2 & _)].
    + rewrite Hd in Hph'. destruct (phase (st w)).
      * destruct Hph as (_ & _ & _ & ->). destruct Hph' as (_ & _ & _ & ->). done.
      * destruct Hph as (c & hs & k & s & h & d & _ & _ & Hk0 & Hsi & -> & _).
        destruct Hph' as (c' & hs' & k' & s' & h' & d' & _ & _ & Hk0' & Hsi' & -> & _).
        apply lookup_lt_Some in Hk0'. apply (progress_table k k'); [lia|done].
      * destruct Hph as (_ & _ & _ & -> & _). destruct Hph' as (_ & _ & _ & -> & _). done.
    + rewrite (Hhi' Hd2). specialize (Hlo ltac:(congruence)). lia.
Qed.

End Progress.

(** ** The page: the five steps of [STEP_SEQUENCE] *)

Lemma STEP_SEQUENCE_positive : Forall (λ s, 0 < duration s) STEP_SEQUENCE.
Proof. repeat constructor. Qed.

Lemma demo_reachable es : reachable STEP_SEQUENCE (demo es).
Proof. apply run_reachable. constructor. Qed.

(** The percentages of the five steps. *)
Lemma progress_of_STEP_SEQUENCE i :
  (i < 5)%nat ->
  progress_of STEP_SEQUENCE i = 15 * (Z.of_nat i + 1) ∧
  progress_of STEP_SEQUENCE i = round_ratio_90 5 (Z.of_nat i).
Proof.
  intros Hi. do 5 (destruct i as [|i]; [by vm_compute|]). lia.
Qed.

Lemma progress_table_STEP_SEQUENCE i j :
  (i <= j)%nat -> (j < length STEP_SEQUENCE)%nat ->
  0 <= progress_of STEP_SEQUENCE i <= progress_of STEP_SEQUENCE j ∧
  progress_of STEP_SEQUENCE j <= 90.
Proof.
  cbn [length STEP_SEQUENCE]. intros Hij Hj.
  destruct (progress_of_STEP_SEQUENCE i) as (-> & _); [lia|].
  destruct (progress_of_STEP_SEQUENCE j) as (-> & _); [lia|]. lia.
Qed.

(** C4: while step i of the five is on show the progress is
    round(((i + 1) / 6) * 90), in binary64 arithmetic as in exact arithmetic,
    and it is 100 exactly when the run is complete; right after a start the
    step index is 0 and the progress 15, and 1200 ms later they are 1 and
    30. *)
Theorem progress_while_playing w :
  reachable STEP_SEQUENCE w ->
  (phase (st w) = running ->
   ∃ i, 0 <= i < 5 ∧ stepIndex (st w) = i ∧
        progress (st w) = progress_at 5 i ∧
        progress_at 5 i = round_ratio_90 5 i) ∧
  (progress (st w) = 100 <-> phase (st w) = complete) ∧
  (stepIndex (st (step STEP_SEQUENCE w StartUnlock)) = 0 ∧
   progress (st (step STEP_SEQUENCE w StartUnlock)) = 15) ∧
  (stepIndex (st (step STEP_SEQUENCE (step STEP_SEQUENCE w StartUnlock) (Elapse 1200))) = 1 ∧
   progress (st (step STEP_SEQUENCE (step STEP_SEQUENCE w StartUnlock) (Elapse 1200))) = 30).
Proof.
  intros HR. apply reachable_Inv in HR. split_and!.
  - intros Hp. pose proof (inv_phase _ _ HR) as Hph. unfold phase_inv in Hph.
    rewrite Hp in Hph.
    destruct Hph as (c & hs & k & s & h & d & _ & _ & Hk & Hsi & Hpr & _).
    apply lookup_lt_Some in Hk. cbn [length STEP_SEQUENCE] in Hk.
    exists (Z.of_nat k). split_and!; try done; try lia.
    by destruct (progress_of_STEP_SEQUENCE k Hk) as (H1 & <-).
  - destruct (progress_range _ progress_table_STEP_SEQUENCE w HR) as (Hlo & Hhi).
    split; [|done]. intros H100.
    destruct (decide (phase (st w) = complete)) as [|Hn]; [done|].
    specialize (Hlo Hn). lia.
  - destruct (start_facts _ w HR) as (_ & _ & _ & Hm).
    change (STEP_SEQUENCE !! 0%nat) with (head STEP_SEQUENCE) in Hm.
    cbn [head STEP_SEQUENCE] in Hm. destruct Hm as (-> & _). done.
  - destruct (start_facts _ w HR) as (_ & _ & _ & Hm).
    change (STEP_SEQUENCE !! 0%nat) with (head STEP_SEQUENCE) in Hm.
    cbn [head STEP_SEQUENCE] in Hm. destruct Hm as (-> & _). by vm_compute.
  - change (step STEP_SEQUENCE (step STEP_SEQUENCE w StartUnlock) (Elapse 1200))
      with (advance STEP_SEQUENCE 1200 (step STEP_SEQUENCE w StartUnlock)).
    by destruct (step_after_start STEP_SEQUENCE w 1200 1 HR) as (_ & -> & _);
      [cbn; lia|by vm_compute|].
  - change (step STEP_SEQUENCE (step STEP_SEQUENCE w StartUnlock) (Elapse 1200))
      with (advance STEP_SEQUENCE 1200 (step STEP_SEQUENCE w StartUnlock)).
    destruct (step_after_start STEP_SEQUENCE w 1200 1 HR) as (_ & _ & ->);
      [cbn; lia|by vm_compute|by vm_compute].
Qed.

(** C5: within a run, that is under every event but a start or a reset,
    the run token stays and neither the step index nor the progress goes
    down; the progress is at most 90 until the run is complete, and 100
    exactly then. *)
Theorem progress_monotone_within_run w e :
  reachable STEP_SEQUENCE w ->
  is_start e = false -> is_reset e = false ->
  runToken (st (step STEP_SEQUENCE w e)) = runToken (st w) ∧
  stepIndex (st w) <= stepIndex (st (step STEP_SEQUENCE w e)) ∧
  progress (st w) <= progress (st (step STEP_SEQUENCE w e)) ∧
  (phase (st w) <> complete -> progress (st w) <= 90) ∧
  (progress (st w) = 100 <-> phase (st w) = complete).
Proof.
  intros HR Hs Hr. apply reachable_Inv in HR.
  destruct (within_run_monotone _ progress_table_STEP_SEQUENCE w e HR Hs Hr)
    as (Ht & Hk & Hp).
  destruct (progress_range _ progress_table_STEP_SEQUENCE w HR) as (Hlo & Hhi).
  split_and!; try done.
  - intros Hn. specialize (Hlo Hn). lia.
  - split; [|done]. intros H100.
    destruct (decide (phase (st w) = complete)) as [|Hn]; [done|].
    specialize (Hlo Hn). lia.
Qed.

(** C6 as stated fails: after a complete run, one togglePreview leaves the
    phase complete and the preview light. *)
Lemma complete_and_light : ~ complete_implies_dark STEP_SEQUENCE.
Proof.
  intros H.
  specialize (H (demo [StartUnlock; Elapse 6500; TogglePreview]) (demo_reachable _)).
  vm_compute in H. specialize (H eq_refl). discriminate.
Qed.

(** C7 as stated fails: with the narration moved back to beat 0 while step 2
    is on show, step 3 comes with beat 0, not with the clamped beat 2. *)
Lemma narration_not_clamped : ~ narration_clamped STEP_SEQUENCE.
Proof.
  intros H.
  specialize (H (demo [StartUnlock; Elapse 2700; NextBeat]) (mkTimer 3 4100 0 3)
                (demo_reachable _)).
  vm_compute in H. specialize (H eq_refl eq_refl). discriminate.
Qed.

(** C8 as stated fails on the page: after a complete run the entry of the
    last step is active. *)
Lemma last_step_stays_active : ~ all_complete_when_complete STEP_SEQUENCE.
Proof.
  intros H.
  specialize (H (demo [StartUnlock; Elapse 6500]) 4 (demo_reachable _)).
  assert (timeline_status (st (demo [StartUnlock; Elapse 6500])) 4 = timeline_complete)
    as Heq.
  { apply H; [by vm_compute|]. unfold len. cbn [length STEP_SEQUENCE]. lia. }
  vm_compute in Heq. discriminate.
Qed.


(** ** The theorems at work on the page *)

Ltac demo_is_reachable :=
  unfold demo, run; cbn [fold_left]; repeat apply reach_step; apply reach_initial.

Lemma run_completes_once_witness :
  Forall (λ s, 0 < duration s) STEP_SEQUENCE ∧
  reachable STEP_SEQUENCE initial ∧
  total_duration STEP_SEQUENCE <= time_passed [1200; 5300] ∧
  phase (st (run STEP_SEQUENCE (Elapse <$> [1200; 5300])
               (step STEP_SEQUENCE initial StartUnlock))) = complete ∧
  completions (runToken (st initial) + 1)
    (log (run STEP_SEQUENCE (Elapse <$> [1200; 5300])
            (step STEP_SEQUENCE initial StartUnlock))) = 1%nat.
Proof.
  assert (Forall (λ s, 0 < duration s) STEP_SEQUENCE) as Hpos by (repeat constructor).
  assert (reachable STEP_SEQUENCE initial) as HR by constructor.
  assert (total_duration STEP_SEQUENCE <= time_passed [1200; 5300]) as Hlong
    by (vm_compute; discriminate).
  pose proof (run_completes_once STEP_SEQUENCE Hpos initial [1200; 5300] HR Hlong)
    as (H1 & _ & _ & _ & _ & _ & H7).
  exact (conj Hpos (conj HR (conj Hlong (conj H1 H7)))).
Defined.

Lemma resetUnlock_cancels_the_run_witness :
  reachable STEP_SEQUENCE (demo [StartUnlock; Elapse 2000]) ∧
  st (step STEP_SEQUENCE (demo [StartUnlock; Elapse 2000]) ResetUnlock)
    = mkState idle (runToken (st (demo [StartUnlock; Elapse 2000]))) light 0 (-1) 0 ∧
  timers (step STEP_SEQUENCE (demo [StartUnlock; Elapse 2000]) ResetUnlock) = [].
Proof.
  assert (reachable STEP_SEQUENCE (demo [StartUnlock; Elapse 2000])) as HR
    by demo_is_reachable.
  pose proof (resetUnlock_cancels_the_run STEP_SEQUENCE _ HR) as (H1 & H2 & _).
  exact (conj HR (conj H1 H2)).
Defined.

Lemma new_run_invalidates_the_old_witness :
  reachable STEP_SEQUENCE (demo [StartUnlock; Elapse 2000]) ∧
  (length (timers (run STEP_SEQUENCE [Elapse 9000]
                     (step STEP_SEQUENCE (demo [StartUnlock; Elapse 2000]) StartUnlock)))
   <= 1)%nat ∧
  ∃ new, log (run STEP_SEQUENCE [Elapse 9000]
                (step STEP_SEQUENCE (demo [StartUnlock; Elapse 2000]) StartUnlock))
         = new ++ log (demo [StartUnlock; Elapse 2000]) ∧
         ∀ o, o ∈ new → runToken (st (demo [StartUnlock; Elapse 2000])) < obs_token o.
Proof.
  assert (reachable STEP_SEQUENCE (demo [StartUnlock; Elapse 2000])) as HR
    by demo_is_reachable.
  pose proof (new_run_invalidates_the_old STEP_SEQUENCE _ [Elapse 9000] HR)
    as (_ & _ & _ & H4 & H5 & _).
  exact (conj HR (conj H5 H4)).
Defined.

Lemma progress_while_playing_witness :
  reachable STEP_SEQUENCE (demo [StartUnlock; Elapse 3000]) ∧
  (progress (st (demo [StartUnlock; Elapse 3000])) = 100
   <-> phase (st (demo [StartUnlock; Elapse 3000])) = complete) ∧
  progress (st (step STEP_SEQUENCE
                  (step STEP_SEQUENCE (demo [StartUnlock; Elapse 3000]) StartUnlock)
                  (Elapse 1200))) = 30.
Proof.
  assert (reachable STEP_SEQUENCE (demo [StartUnlock; Elapse 3000])) as HR
    by demo_is_reachable.
  pose proof (progress_while_playing _ HR) as (_ & H2 & _ & _ & H4).
  exact (conj HR (conj H2 H4)).
Defined.

Lemma progress_monotone_within_run_witness :
  reachable STEP_SEQUENCE (demo [StartUnlock; Elapse 1000]) ∧
  is_start (Elapse 3000) = false ∧ is_reset (Elapse 3000) = false ∧
  progress (st (demo [StartUnlock; Elapse 1000]))
    <= progress (st (step STEP_SEQUENCE (demo [StartUnlock; Elapse 1000]) (Elapse 3000))).
Proof.
  assert (reachable STEP_SEQUENCE (demo [StartUnlock; Elapse 1000])) as HR
    by demo_is_reachable.
  pose proof (progress_monotone_within_run _ (Elapse 3000) HR eq_refl eq_refl)
    as (_ & _ & H3 & _).
  exact (conj HR (conj eq_refl (conj eq_refl H3))).
Defined.

Lemma completion_sets_dark_once_witness :
  reachable STEP_SEQUENCE (demo [StartUnlock; Elapse 6000]) ∧
  phase (st (demo [StartUnlock; Elapse 6000])) <> complete ∧
  phase (st (step STEP_SEQUENCE (demo [StartUnlock; Elapse 6000]) (Elapse 500))) = complete ∧
  previewMode (st (step STEP_SEQUENCE (demo [StartUnlock; Elapse 6000]) (Elapse 500))) = dark.
Proof.
  assert (reachable STEP_SEQUENCE (demo [StartUnlock; Elapse 6000])) as HR
    by demo_is_reachable.
  assert (phase (st (demo [StartUnlock; Elapse 6000])) <> complete) as Hn
    by (vm_compute; discriminate).
  assert (phase (st (step STEP_SEQUENCE (demo [StartUnlock; Elapse 6000]) (Elapse 500)))
          = complete) as Hc by (vm_compute; reflexivity).
  pose proof (completion_sets_dark_once STEP_SEQUENCE _ (Elapse 500) HR) as (H1 & _).
  exact (conj HR (conj Hn (conj Hc (H1 Hn Hc)))).
Defined.

Lemma narration_follows_step_within_script_witness :
  reachable STEP_SEQUENCE (demo [StartUnlock; Elapse 2700]) ∧
  timers (demo [StartUnlock; Elapse 2700]) = [mkTimer 3 4100 0 3] ∧
  phase (st (fire STEP_SEQUENCE (mkTimer 3 4100 0 3) (demo [StartUnlock; Elapse 2700])))
    = running ∧
  stepIndex (st (fire STEP_SEQUENCE (mkTimer 3 4100 0 3) (demo [StartUnlock; Elapse 2700])))
    = stepIndex (st (demo [StartUnlock; Elapse 2700])) + 1.
Proof.
  assert (reachable STEP_SEQUENCE (demo [StartUnlock; Elapse 2700])) as HR
    by demo_is_reachable.
  assert (timers (demo [StartUnlock; Elapse 2700]) = [mkTimer 3 4100 0 3]) as Ht
    by (vm_compute; reflexivity).
  assert (phase (st (fire STEP_SEQUENCE (mkTimer 3 4100 0 3)
                       (demo [StartUnlock; Elapse 2700]))) = running) as Hp
    by (vm_compute; reflexivity).
  pose proof (narration_follows_step_within_script STEP_SEQUENCE _ _ HR Ht Hp) as (H1 & _).
  exact (conj HR (conj Ht (conj Hp H1))).
Defined.

Lemma timeline_when_complete_witness :
  reachable STEP_SEQUENCE (demo [StartUnlock; Elapse 6500]) ∧
  phase (st (demo [StartUnlock; Elapse 6500])) = complete ∧
  0 <= 4 < len STEP_SEQUENCE ∧
  timeline_status (st (demo [StartUnlock; Elapse 6500])) 4 =
    (if 4 =? len STEP_SEQUENCE - 1 then timeline_active else timeline_complete).
Proof.
  assert (reachable STEP_SEQUENCE (demo [StartUnlock; Elapse 6500])) as HR
    by demo_is_reachable.
  assert (phase (st (demo [StartUnlock; Elapse 6500])) = complete) as Hc
    by (vm_compute; reflexivity).
  assert (0 <= 4 < len STEP_SEQUENCE) as Hi
    by (vm_compute; split; [discriminate|reflexivity]).
  pose proof (timeline_when_complete STEP_SEQUENCE _ 4 HR Hc Hi) as (_ & H2).
  exact (conj HR (conj Hc (conj Hi H2))).
Defined.

Lemma startUnlock_starts_the_sequencer_witness :
  reachable STEP_SEQUENCE (demo [StartUnlock; Elapse 6500; PreviousBeat]) ∧
  phase (st (demo [StartUnlock; Elapse 6500; PreviousBeat])) <> running ∧
  STEP_SEQUENCE <> [] ∧ (length STEP_SEQUENCE <= 128)%nat ∧
  st (demo [StartUnlock; Elapse 6500; PreviousBeat]) = mkState complete 1 dark 1 4 100 ∧
  st (commit STEP_SEQUENCE (enqueue startUnlock (demo [StartUnlock; Elapse 6500; PreviousBeat])))
    = mkState running 2 light 0 (-1) 0 ∧
  st (step STEP_SEQUENCE (demo [StartUnlock; Elapse 6500; PreviousBeat]) StartUnlock)
    = mkState running 2 light 0 0 15.
Proof.
  assert (reachable STEP_SEQUENCE (demo [StartUnlock; Elapse 6500; PreviousBeat])) as HR
    by demo_is_reachable.
  assert (st (demo [StartUnlock; Elapse 6500; PreviousBeat]) = mkState complete 1 dark 1 4 100)
    as Hst by (vm_compute; reflexivity).
  assert (phase (st (demo [StartUnlock; Elapse 6500; PreviousBeat])) <> running) as Hp
    by (rewrite Hst; discriminate).
  assert (STEP_SEQUENCE <> []) as Hne by discriminate.
  assert (length STEP_SEQUENCE <= 128)%nat as Hlen by (cbn; lia).
  pose proof (startUnlock_starts_the_sequencer STEP_SEQUENCE _ HR Hp Hne Hlen)
    as (H1 & H2 & _).
  rewrite Hst in H1, H2.
  exact (conj HR (conj Hp (conj Hne (conj Hlen (conj Hst (conj H1 H2)))))).
Defined.

Lemma runToken_changes_only_on_start_witness :
  reachable STEP_SEQUENCE (demo [StartUnlock; Elapse 2000]) ∧
  runToken (st (step STEP_SEQUENCE (demo [StartUnlock; Elapse 2000]) ResetUnlock))
    = runToken (st (demo [StartUnlock; Elapse 2000])) ∧
  runToken (st (step STEP_SEQUENCE (demo [StartUnlock; Elapse 2000]) StartUnlock))
    = runToken (st (demo [StartUnlock; Elapse 2000])) + 1.
Proof.
  assert (reachable STEP_SEQUENCE (demo [StartUnlock; Elapse 2000])) as HR
    by demo_is_reachable.
  pose proof (runToken_changes_only_on_start STEP_SEQUENCE _ NextBeat HR) as (H1 & H2 & _).
  exact (conj HR (conj H1 H2)).
Defined.

(** ** Further properties of the page *)

Section More.

Variable catalog : list UnlockStep.

Local Abbreviation Inv := (Inv catalog).
Local Abbreviation step := (step catalog).
Local Abbreviation run := (run catalog).
Local Abbreviation reachable := (reachable catalog).

(** X1: every event ends with nothing left to render: the render passes that
    effects set off die out within the nested update limit. *)
Theorem renders_settle w e :
  reachable w -> queue (step w e) = [].
Proof.
  intros HR. apply reachable_Inv in HR. apply (inv_queue _ _ (Inv_step _ w e HR)).
Qed.

(** X2: when [ms] milliseconds have passed the clock shows it and no pending
    timer is overdue: every timer due by then has fired. *)
Theorem elapse_fires_all_due w ms :
  reachable w ->
  now (step w (Elapse ms)) = now w + Z.max 0 ms ∧
  ∀ tm, tm ∈ timers (step w (Elapse ms)) → now (step w (Elapse ms)) < due tm.
Proof.
  intros HR. apply reachable_Inv in HR.
  destruct (advance_facts _ ms w HR) as (_ & _ & _ & _ & Hnow & Hn & _).
  cbn [step]. split; [done|]. intros tm Htm.
  pose proof (Inv_one_timer _ _ (Inv_advance _ ms w HR)) as Hone.
  destruct (timers (advance catalog ms w)) as [|tm0 [|? ?]] eqn:Ht;
    [by apply elem_of_nil in Htm| |cbn in Hone; lia].
  apply list_elem_of_singleton in Htm as ->. by apply next_timer_single_None.
Qed.

(** X3: with durations that [setTimeout] takes as they are, step [k] is on
    show from the moment the durations before it have passed until its own
    has passed too, with the percentage of step [k], which for catalogs of up
    to 18 steps is the exactly rounded ratio. *)
Theorem step_on_show w ms k :
  reachable w ->
  Forall (λ s, duration s <= MAX_DELAY) catalog ->
  (k < length catalog)%nat ->
  elapsed_until catalog k <= ms < elapsed_until catalog (S k) ->
  phase (st (step (step w StartUnlock) (Elapse ms))) = running ∧
  stepIndex (st (step (step w StartUnlock) (Elapse ms))) = Z.of_nat k ∧
  progress (st (step (step w StartUnlock) (Elapse ms))) =
    progress_at (len catalog) (Z.of_nat k) ∧
  ((length catalog <= 18)%nat ->
   progress (st (step (step w StartUnlock) (Elapse ms))) =
     round_ratio_90 (len catalog) (Z.of_nat k)).
Proof.
  intros HR _ Hk Hms. apply reachable_Inv in HR.
  destruct (step_after_start catalog w ms k HR Hk Hms) as (H1 & H2 & H3).
  split_and!; try done.
  intros Hlen. cbn [step] in *. rewrite H3. by apply progress_exact_sound.
Qed.

(** X4: with durations that [setTimeout] takes as they are, the completion
    never comes early: until the durations of all the steps have passed,
    the phase is running and the callback has not been called. *)
Theorem no_early_completion w ms :
  reachable w -> catalog <> [] ->
  Forall (λ s, duration s <= MAX_DELAY) catalog ->
  0 <= ms < elapsed_until catalog (length catalog) ->
  phase (st (step (step w StartUnlock) (Elapse ms))) = running ∧
  completions (runToken (st w) + 1) (log (step (step w StartUnlock) (Elapse ms))) = 0%nat.
Proof.
  intros HR Hne _ Hms. apply reachable_Inv in HR.
  pose proof (Inv_step _ w StartUnlock HR) as HI1.
  pose proof (Inv_advance _ ms _ HI1) as HI2.
  pose proof (advance_schedule _ (now w) ms _ HI1 (start_schedule _ w HR)) as Hs.
  destruct (advance_facts _ ms _ HI1) as (Ht & _ & _ & Hp & Hnow & Hn & _).
  destruct (start_facts _ w HR) as (Ht1 & Hnow1 & _ & Hm).
  pose proof (schedule_position _ _ _ HI2 Hs Hn) as Hpos.
  destruct catalog as [|s0 rest] eqn:Hcat; [done|]. rewrite <- Hcat in *.
  assert (catalog !! 0%nat = Some s0) as H0 by (by rewrite Hcat).
  rewrite H0 in Hm. destruct Hm as (Hst & _).
  change (step (step w StartUnlock) (Elapse ms))
    with (advance catalog ms (step w StartUnlock)).
  assert (phase (st (advance catalog ms (step w StartUnlock))) = running)
    as Hrun.
  { destruct (phase (st (advance catalog ms (step w StartUnlock)))) eqn:Hph.
    - destruct Hp as [[Hp _]|(_ & Hp & _)]; [|done]. by rewrite Hst in Hp.
    - done.
    - rewrite Hnow, Hnow1 in Hpos. lia. }
  split; [done|].
  pose proof (inv_phase _ _ HI2) as Hph. unfold phase_inv in Hph.
  rewrite Hrun, Ht, Ht1 in Hph.
  by destruct Hph as (c & hs & k & s & h & d & _ & _ & _ & _ & _ & _ & _ & _ & Hc).
Qed.

End More.

Section Navigation.

Variable catalog : list UnlockStep.

Local Abbreviation Inv := (Inv catalog).
Local Abbreviation step := (step catalog).
Local Abbreviation run := (run catalog).
Local Abbreviation reachable := (reachable catalog).

Lemma world_eta w :
  mkWorld (mkState (phase (st w)) (runToken (st w)) (previewMode (st w))
             (scriptIndex (st w)) (stepIndex (st w)) (progress (st w)))
    (queue w) (now w) (timers w) (next_id w) (closures w) (cleanup w) (log w) = w.
Proof. by destruct w as [[] ? ? ? ? ? ? ?]. Qed.

(** X5: the narration buttons walk the three beats in a cycle, each undoing the
    other: the next beat after the last is the first, the previous beat
    before the first is the last. *)
Theorem beat_navigation_cycles w :
  reachable w ->
  scriptIndex (st (step w NextBeat)) = (scriptIndex (st w) + 1) mod 3 ∧
  scriptIndex (st (step w PreviousBeat)) = (scriptIndex (st w) - 1) mod 3 ∧
  step (step w NextBeat) PreviousBeat = w ∧
  step (step w PreviousBeat) NextBeat = w ∧
  step (step (step w NextBeat) NextBeat) NextBeat = w.
Proof.
  intros HR. apply reachable_Inv in HR.
  pose proof (Inv_step _ w NextBeat HR) as HIn.
  pose proof (Inv_step _ w PreviousBeat HR) as HIp.
  pose proof (Inv_step _ _ NextBeat HIn) as HInn.
  pose proof (inv_script _ _ HR) as Hsc. rewrite len_DEMO_SCRIPT in Hsc.
  pose proof (inv_queue _ _ HR) as Hq.
  assert (∀ si, 0 <= si < 3 -> JS.rem (si + 1) (len DEMO_SCRIPT) = (si + 1) mod 3) as Hn.
  { intros si Hsi. rewrite len_DEMO_SCRIPT. unfold JS.rem. apply Z.rem_mod_nonneg; lia. }
  assert (∀ si, 0 <= si < 3 ->
            JS.rem (si - 1 + len DEMO_SCRIPT) (len DEMO_SCRIPT) = (si - 1) mod 3) as Hp.
  { intros si Hsi. rewrite len_DEMO_SCRIPT. unfold JS.rem.
    rewrite Z.rem_mod_nonneg by lia.
    replace (si - 1 + 3) with (si - 1 + 1 * 3) by lia. by rewrite Z.mod_add. }
  assert (∀ si, 0 <= si < 3 -> ((si + 1) mod 3 - 1) mod 3 = si) as H1.
  { intros si Hsi. assert (si = 0 ∨ si = 1 ∨ si = 2) as [->|[->| ->]] by lia; done. }
  assert (∀ si, 0 <= si < 3 -> ((si - 1) mod 3 + 1) mod 3 = si) as H2.
  { intros si Hsi. assert (si = 0 ∨ si = 1 ∨ si = 2) as [->|[->| ->]] by lia; done. }
  assert (∀ si, 0 <= si < 3 -> (((si + 1) mod 3 + 1) mod 3 + 1) mod 3 = si) as H3.
  { intros si Hsi. assert (si = 0 ∨ si = 1 ∨ si = 2) as [->|[->| ->]] by lia; done. }
  assert (∀ si, 0 <= si < 3 -> 0 <= (si + 1) mod 3 < 3) as Hr
    by (intros; apply Z.mod_pos_bound; lia).
  assert (∀ si, 0 <= si < 3 -> 0 <= (si - 1) mod 3 < 3) as Hr'
    by (intros; apply Z.mod_pos_bound; lia).
  split_and!.
  - rewrite next_eq by done. cbn. by apply Hn.
  - rewrite previous_eq by done. cbn. by apply Hp.
  - rewrite (previous_eq _ _ HIn), (next_eq _ _ HR). cbn.
    rewrite Hn, Hp, H1 by auto. rewrite <- Hq at 1. apply world_eta.
  - rewrite (next_eq _ _ HIp), (previous_eq _ _ HR). cbn.
    rewrite Hp, Hn, H2 by auto. rewrite <- Hq at 1. apply world_eta.
  - rewrite (next_eq _ _ HInn), (next_eq _ _ HIn), (next_eq _ _ HR). cbn.
    rewrite (Hn _ Hsc), (Hn _ (Hr _ Hsc)), (Hn _ (Hr _ (Hr _ Hsc))), H3 by done.
    rewrite <- Hq at 1. apply world_eta.
Qed.

(** X6: the narration panel always has a line to show: the beat index stays
    within the script, so [DEMO_SCRIPT[scriptIndex]] is never undefined and
    the label reads "Beat 1" to "Beat 3". *)
Theorem narration_line_defined w :
  reachable w ->
  (∃ line, narration_line (st w) = Some line) ∧ 1 <= beat_label (st w) <= 3.
Proof.
  intros HR. apply reachable_Inv in HR.
  pose proof (inv_script _ _ HR) as Hsc. rewrite len_DEMO_SCRIPT in Hsc.
  unfold narration_line, beat_label. split; [|lia].
  destruct (Z.leb_spec 0 (scriptIndex (st w))); [|lia].
  apply lookup_lt_is_Some_2. cbn [length DEMO_SCRIPT]. lia.
Qed.

(** X7: togglePreview touches the preview and nothing else, and a second toggle
    brings the page back exactly. *)
Theorem togglePreview_involutive w :
  reachable w ->
  step (step w TogglePreview) TogglePreview = w ∧
  previewMode (st (step w TogglePreview)) = flip (previewMode (st w)) ∧
  (phase (st (step w TogglePreview)), stepIndex (st (step w TogglePreview)),
   progress (st (step w TogglePreview)), scriptIndex (st (step w TogglePreview)),
   runToken (st (step w TogglePreview)))
  = (phase (st w), stepIndex (st w), progress (st w), scriptIndex (st w), runToken (st w)) ∧
  timers (step w TogglePreview) = timers w ∧ log (step w TogglePreview) = log w.
Proof.
  intros HR. apply reachable_Inv in HR.
  pose proof (Inv_step _ w TogglePreview HR) as HI.
  pose proof (inv_queue _ _ HR) as Hq.
  split_and!; try (by rewrite toggle_eq).
  rewrite (toggle_eq _ _ HI), (toggle_eq _ _ HR). cbn.
  replace (flip (flip (previewMode (st w)))) with (previewMode (st w))
    by (by destruct (previewMode (st w))).
  rewrite <- Hq at 1. apply world_eta.
Qed.

(** X8: the run token counts the starts. *)
Theorem runToken_counts_starts es :
  runToken (st (run es initial)) = count_starts es.
Proof.
  assert (∀ es w, Inv w ->
            runToken (st (run es w)) = runToken (st w) + count_starts es) as H.
  { clear es. induction es as [|e es IH]; intros w HI.
    - cbn. unfold count_starts, len. cbn. lia.
    - change (run (e :: es) w) with (run es (step w e)).
      rewrite IH by (by apply Inv_step). rewrite step_token by done.
      unfold count_starts, len. destruct e; cbn [is_start];
        rewrite ?filter_cons_True, ?filter_cons_False by done; cbn [length]; lia. }
  rewrite H by apply Inv_initial. cbn. lia.
Qed.

(** X9: a start from any phase, also over a run in flight, gives the same fresh
    run; a reset in between changes nothing about it. *)
Theorem start_is_a_fresh_run w :
  reachable w -> catalog <> [] ->
  st (step w StartUnlock) =
    mkState running (runToken (st w) + 1) light 0 0 (progress_at (len catalog) 0) ∧
  st (step (step w ResetUnlock) StartUnlock) = st (step w StartUnlock) ∧
  (length (timers (step w StartUnlock)) = 1)%nat.
Proof.
  intros HR Hne. apply reachable_Inv in HR.
  pose proof (Inv_step _ w ResetUnlock HR) as HI.
  destruct (start_facts _ w HR) as (_ & _ & _ & Hm).
  destruct (start_facts _ _ HI) as (_ & _ & _ & Hm').
  destruct (reset_facts _ w HR) as (Hst & _).
  destruct (catalog !! 0%nat) as [s0|] eqn:H0.
  - destruct Hm as (-> & h & c & ->). destruct Hm' as (-> & _).
    rewrite Hst. done.
  - destruct catalog; [done|discriminate].
Qed.

(** X10: with no step to play a start is over at once: the phase is complete
    with progress 100, the step index stays at -1, nothing is pending and
    the callback has been called once. *)
Theorem empty_catalog_completes_at_once w :
  reachable w -> catalog = [] ->
  st (step w StartUnlock) = mkState complete (runToken (st w) + 1) dark 2 (-1) 100 ∧
  timers (step w StartUnlock) = [] ∧
  completions (runToken (st w) + 1) (log (step w StartUnlock)) = 1%nat.
Proof.
  intros HR Hnil. apply reachable_Inv in HR.
  pose proof (Inv_step _ w StartUnlock HR) as HI.
  destruct (start_facts _ w HR) as (_ & _ & _ & Hm).
  assert (catalog !! 0%nat = None) as H0 by (by rewrite Hnil).
  rewrite H0 in Hm. destruct Hm as (Hst & Ht). split_and!; try done.
  pose proof (inv_phase _ _ HI) as Hph. unfold phase_inv in Hph.
  rewrite Hst in Hph. cbn in Hph. apply Hph.
Qed.

End Navigation.

(** ** Cancellation, for any world *)

Lemma elem_of_clearTimeout tm h ts :
  tm ∈ clearTimeout h ts ↔ tm ∈ ts ∧ handle tm ≠ h.
Proof. unfold clearTimeout. rewrite list_elem_of_filter. tauto. Qed.

Lemma elem_of_clearTimeouts tm hs ts :
  tm ∈ clearTimeouts hs ts ↔ tm ∈ ts ∧ handle tm ∉ hs.
Proof.
  revert ts. induction hs as [|h hs IH]; intros ts.
  - cbn. split; [intros H; split; [done|apply not_elem_of_nil]|tauto].
  - unfold clearTimeouts. cbn [fold_left]. fold (clearTimeouts hs (clearTimeout h ts)).
    rewrite IH, elem_of_clearTimeout, not_elem_of_cons. tauto.
Qed.

(** X11: the cleanup of the sequencer effect, in whatever world it runs, sets
    the flag of its closure and clears exactly the timers whose handles the
    closure collected: those are gone, all others stay, and the closure then
    ignores every resumption. *)
Theorem cleanup_clears_its_timers (catalog : list UnlockStep) w c cl :
  cleanup w = Some c -> closures w !! c = Some cl ->
  (∀ tm, tm ∈ timers (cleanup_sequence w) ↔ tm ∈ timers w ∧ handle tm ∉ timeouts cl) ∧
  closures (cleanup_sequence w) !! c = Some (mkClosure (token cl) true (timeouts cl)) ∧
  cleanup (cleanup_sequence w) = None ∧
  st (cleanup_sequence w) = st w ∧
  ∀ i, executeSequence catalog c i (cleanup_sequence w) = cleanup_sequence w.
Proof.
  intros Hcu Hc. unfold cleanup_sequence. rewrite Hcu, Hc. cbn.
  split_and!; try done.
  - intros tm. apply elem_of_clearTimeouts.
  - apply lookup_insert_eq.
  - intros i. eapply executeSequence_cancelled; [apply lookup_insert_eq|done].
Qed.

Section Teardown.

Variable catalog : list UnlockStep.

Local Abbreviation Inv := (Inv catalog).
Local Abbreviation reachable := (reachable catalog).

(** X12: unmounting the page, in any phase, leaves no timer pending and every
    closure cancelled, so that however much time passes afterwards the state
    is not touched and the sequencer makes no call. *)
Theorem unmount_cancels_everything w ms :
  reachable w ->
  timers (unmount w) = [] ∧
  (∀ c cl, closures (unmount w) !! c = Some cl → cancelled cl = true) ∧
  st (advance catalog ms (unmount w)) = st w ∧
  log (advance catalog ms (unmount w)) = log w ∧
  timers (advance catalog ms (unmount w)) = [].
Proof.
  intros HR. apply reachable_Inv in HR.
  assert (timers (unmount w) = [] ∧ st (unmount w) = st w ∧ log (unmount w) = log w ∧
          ∀ c cl, closures (unmount w) !! c = Some cl → cancelled cl = true)
    as (Ht & Hst & Hl & Hcl).
  { pose proof (inv_closures _ _ HR) as Hok.
    destruct (Inv_shape _ w HR) as [p t pm si sx pr nw nid cls lg Hp
                                   |t pm si k nw h d c nid cls lg hs s Hc Hh Hk Hd];
      unfold unmount, cleanup_sequence; cbn in *.
    - split_and!; try done. intros c cl Hc. by apply (Hok c cl Hc).
    - rewrite Hc. cbn. split_and!; try done.
      + by apply (clearTimeouts_single hs (mkTimer h d c (S k))).
      + intros c' cl' Hc'. destruct (decide (c' = c)) as [->|Hne].
        * rewrite lookup_insert_eq in Hc'. by injection Hc' as <-.
        * rewrite lookup_insert_ne in Hc' by done.
          apply (Hok c' cl' Hc'). congruence. }
  split_and!; try done.
  all: unfold advance, advance_fuel; rewrite Ht;
    cbn [length Nat.mul advance_to]; rewrite Ht; cbn [next_timer earliest st log timers]; done.
Qed.

End Teardown.

(** ** The table of percentages *)

Lemma progress_table_ok_128 : forallb progress_table_ok (seq 0 129) = true.
Proof. by vm_compute. Qed.

Lemma progress_table_sound n :
  (n <= 128)%nat ->
  ∀ i j, (i <= j)%nat -> (j < n)%nat ->
    0 <= progress_at (Z.of_nat n) (Z.of_nat i) <= progress_at (Z.of_nat n) (Z.of_nat j) ∧
    progress_at (Z.of_nat n) (Z.of_nat j) <= 90.
Proof.
  intros Hn.
  pose proof progress_table_ok_128 as H. rewrite forallb_forall in H.
  specialize (H n). rewrite in_seq in H. specialize (H ltac:(lia)).
  unfold progress_table_ok in H. rewrite forallb_forall in H.
  assert (∀ i, (i < n)%nat ->
            0 <= progress_at (Z.of_nat n) (Z.of_nat i) <= 90 ∧
            ((S i < n)%nat -> progress_at (Z.of_nat n) (Z.of_nat i)
                               <= progress_at (Z.of_nat n) (Z.of_nat (S i)))) as Hrow.
  { intros i Hi. specialize (H i). rewrite in_seq in H. specialize (H ltac:(lia)).
    apply andb_prop in H as [H H3]. apply andb_prop in H as [H1 H2].
    apply Z.leb_le in H1, H2. split; [lia|]. intros HS.
    apply orb_prop in H3 as [H3|H3]; [apply Nat.eqb_eq in H3; lia|by apply Z.leb_le]. }
  intros i j Hij Hj. induction Hij as [|j Hij IH].
  - destruct (Hrow i Hj). lia.
  - destruct (Hrow j ltac:(lia)) as (_ & Hstep). specialize (Hstep Hj).
    destruct (Hrow (S j) Hj). specialize (IH ltac:(lia)). lia.
Qed.

(** X13: for every catalog of up to 128 steps the percentages computed in
    binary64 start at 0 or above, never go down from one step to the next
    and never exceed 90. *)
Theorem progress_table_up_to_128 n i j :
  (n <= 128)%nat -> (i <= j)%nat -> (j < n)%nat ->
  0 <= progress_at (Z.of_nat n) (Z.of_nat i) <= progress_at (Z.of_nat n) (Z.of_nat j) ∧
  progress_at (Z.of_nat n) (Z.of_nat j) <= 90.
Proof. intros Hn. by apply progress_table_sound. Qed.

(** X14: up to 18 steps the binary64 percentage is the exactly rounded ratio,
    and 18 is the last size for which that holds: step 6 of 19 shows 31
    where the exact ratio 31.5 rounds to 32. *)
Theorem progress_exact_up_to_18 n i :
  (n <= 18)%nat -> (i < n)%nat ->
  progress_at (Z.of_nat n) (Z.of_nat i) = round_ratio_90 (Z.of_nat n) (Z.of_nat i) ∧
  progress_at 19 6 = 31 ∧ round_ratio_90 19 6 = 32.
Proof.
  intros Hn Hi. split; [|by vm_compute].
  pose proof progress_exact_ok_18 as H. rewrite forallb_forall in H.
  specialize (H n). rewrite in_seq in H. specialize (H ltac:(lia)).
  unfold progress_exact_ok in H. rewrite forallb_forall in H.
  specialize (H i). rewrite in_seq in H. specialize (H ltac:(lia)).
  by apply Z.eqb_eq.
Qed.

(** ** Time adds up *)

Section Additivity.

Variable catalog : list UnlockStep.

Local Abbreviation Inv := (Inv catalog).
Local Abbreviation step := (step catalog).
Local Abbreviation reachable := (reachable catalog).
Local Abbreviation ticks := (ticks catalog).

Lemma next_timer_later D1 D2 ts tm :
  D1 <= D2 -> next_timer D1 ts = Some tm -> next_timer D2 ts = Some tm.
Proof.
  unfold next_timer. intros HD. destruct (earliest ts) as [tm0|]; [|done].
  destruct (Z.leb_spec (due tm0) D1); [|done]. intros [= ->].
  destruct (Z.leb_spec (due tm) D2); [done|lia].
Qed.

Lemma next_timer_between D1 D2 ts tm :
  next_timer D1 ts = None -> next_timer D2 ts = Some tm -> D1 < due tm.
Proof.
  unfold next_timer. destruct (earliest ts) as [tm0|]; [|done].
  destruct (Z.leb_spec (due tm0) D1); [done|]. intros _.
  destruct (Z.leb_spec (due tm0) D2); [|done]. by intros [= ->].
Qed.

Lemma ticks_later D1 D2 w w' : D1 <= D2 -> ticks D1 w w' -> ticks D2 w w'.
Proof.
  intros HD HT. induction HT as [w|w tm w' Hn _ IH]; [constructor|].
  econstructor; [by eapply next_timer_later|done].
Qed.

Lemma ticks_trans D w1 w2 w3 : ticks D w1 w2 -> ticks D w2 w3 -> ticks D w1 w3.
Proof.
  intros H12 H23. induction H12 as [w|w tm w' Hn _ IH]; [done|].
  econstructor; [done|by apply IH].
Qed.

(** The timers due by a deadline fire in one way only. *)
Lemma ticks_deterministic D w w1 w2 :
  ticks D w w1 -> next_timer D (timers w1) = None ->
  ticks D w w2 -> next_timer D (timers w2) = None -> w1 = w2.
Proof.
  intros H1. revert w2. induction H1 as [w|w tm w' Hn _ IH]; intros w2 Hn1 H2 Hn2.
  - destruct H2 as [|w tm w2 Hn _]; [done|congruence].
  - destruct H2 as [|w tm2 w2 Hn2' H2]; [congruence|].
    assert (tm2 = tm) as -> by congruence. by apply IH.
Qed.

Lemma fire_at_time tm t w :
  Z.max t (due tm) = Z.max (now w) (due tm) ->
  fire catalog tm (at_time t w) = fire catalog tm w.
Proof. intros H. unfold fire, at_time. cbn. by rewrite H. Qed.

(** X15: waiting [a] and then [b] milliseconds is waiting [a + b]. *)
Theorem elapse_adds_up w a b :
  reachable w -> 0 <= a -> 0 <= b ->
  step (step w (Elapse a)) (Elapse b) = step w (Elapse (a + b)).
Proof.
  intros HR Ha Hb. apply reachable_Inv in HR. cbn [step].
  destruct (advance_ticks _ a w HR) as (w0 & HT0 & Hn0 & Heq0).
  destruct (ticks_facts _ _ _ _ HR HT0) as (_ & _ & _ & _ & Hnow0).
  specialize (Hnow0 ltac:(lia)).
  rewrite Z.max_r in Heq0 by done. rewrite Z.max_r in * by done.
  pose proof (Inv_advance _ a w HR) as HI1.
  destruct (advance_ticks _ b _ HI1) as (w1 & HT1 & Hn1 & Heq1).
  destruct (ticks_facts _ _ _ _ HI1 HT1) as (_ & _ & _ & _ & Hnow1).
  specialize (Hnow1 ltac:(lia)).
  rewrite Z.max_r in Heq1 by done. rewrite Z.max_r in HT1, Hn1, Heq1 by done.
  destruct (advance_ticks _ (a + b) w HR) as (w2 & HT2 & Hn2 & Heq2).
  destruct (ticks_facts _ _ _ _ HR HT2) as (_ & _ & _ & _ & Hnow2).
  specialize (Hnow2 ltac:(lia)).
  rewrite Z.max_r in Heq2 by done. rewrite Z.max_r in HT2, Hn2, Heq2 by lia.
  rewrite Heq1, Heq2. rewrite Heq0 in HT1, Hn1 |- *. cbn [at_time now] in *.
  replace (now w + a + b) with (now w + (a + b)) in * by lia.
  set (D1 := now w + a) in *. set (D2 := now w + (a + b)) in *.
  assert (D1 <= D2) as HD by (unfold D1, D2; lia).
  inversion HT1 as [w' Hw'|w' tm w'' Hn HT1' Hw' Hw'']; subst.
  - (* nothing more is due by the later deadline *)
    cbn [at_time timers] in Hn1.
    assert (w2 = w0) as ->.
    { eapply (ticks_deterministic D2 w); [exact HT2|exact Hn2| |exact Hn1].
      by eapply ticks_later. }
    reflexivity.
  - cbn [at_time timers] in Hn.
    pose proof (next_timer_between _ _ _ _ Hn0 Hn) as Hlate.
    rewrite fire_at_time in HT1' by lia.
    assert (w2 = w1) as ->; [|done].
    eapply (ticks_deterministic D2 w); [exact HT2|exact Hn2| |exact Hn1].
    eapply ticks_trans; [by eapply ticks_later|].
    econstructor; [exact Hn|exact HT1'].
Qed.

End Additivity.

(** ** The run and the clicks around it *)

Section Clicks.

Variable catalog : list UnlockStep.

Local Abbreviation Inv := (Inv catalog).
Local Abbreviation step := (step catalog).
Local Abbreviation run := (run catalog).
Local Abbreviation reachable := (reachable catalog).
Local Abbreviation scheduled := (on_schedule catalog).

(** What an event that is neither a start nor a reset keeps of a run. *)
Lemma undisturbed_step t0 w e :
  Inv w -> scheduled t0 w -> is_start e = false -> is_reset e = false ->
  phase (st w) <> idle ->
  scheduled t0 (step w e) ∧
  phase (st (step w e)) <> idle ∧
  runToken (st (step w e)) = runToken (st w) ∧
  now (step w e) = now w + time_of [e] ∧
  (next_timer (now w) (timers w) = None ->
   next_timer (now (step w e)) (timers (step w e)) = None).
Proof.
  intros HI Hs He Hr Hp.
  assert (∀ pm si,
            scheduled t0
              (mkWorld (mkState (phase (st w)) (runToken (st w)) pm si
                          (stepIndex (st w)) (progress (st w)))
                 [] (now w) (timers w) (next_id w) (closures w) (cleanup w) (log w)))
    as Hq.
  { intros pm si. unfold on_schedule in *. cbn. by destruct (phase (st w)). }
  destruct e; try done.
  - rewrite toggle_eq by done. cbn. split_and!; try done. lia.
  - rewrite previous_eq by done. cbn. split_and!; try done. lia.
  - rewrite next_eq by done. cbn. split_and!; try done. lia.
  - destruct (advance_facts _ ms w HI) as (Ht & _ & _ & Hd & Hnow & Hn & _).
    cbn [step time_of foldr]. split_and!; try done.
    + by apply advance_schedule.
    + destruct Hd as [[-> _]|(_ & -> & _)]; done.
    + lia.
Qed.

Lemma undisturbed_run t0 es w :
  Inv w -> scheduled t0 w -> phase (st w) <> idle ->
  Forall (λ e, is_start e = false ∧ is_reset e = false) es ->
  next_timer (now w) (timers w) = None ->
  Inv (run es w) ∧ scheduled t0 (run es w) ∧
  phase (st (run es w)) <> idle ∧
  runToken (st (run es w)) = runToken (st w) ∧
  now (run es w) = now w + time_of es ∧
  next_timer (now (run es w)) (timers (run es w)) = None.
Proof.
  revert w. induction es as [|e es IH]; intros w HI Hs Hp Hes Hn.
  - change (run [] w) with w. change (time_of []) with 0. split_and!; try done. lia.
  - apply Forall_cons in Hes as [[He Hr] Hes].
    change (run (e :: es) w) with (run es (step w e)).
    destruct (undisturbed_step t0 w e HI Hs He Hr Hp) as (H1 & H2 & H3 & H4 & H5).
    destruct (IH (step w e)) as (G1 & G2 & G3 & G4 & G5 & G6); try done.
    + by apply Inv_step.
    + by apply H5.
    + split_and!; try done; [congruence|].
      rewrite G5, H4. change (time_of [e]) with (time_of (e :: [])).
      unfold time_of. cbn [foldr]. destruct e; lia.
Qed.

Hypothesis positive_durations : Forall (λ s, 0 < duration s) catalog.

(** X16: toggling the preview and walking the narration while a run plays do
    not disturb it: when the durations of all the steps have passed, however
    the time is cut up by such clicks, the run is complete with progress 100
    and has called the completion callback exactly once. *)
Theorem clicks_do_not_disturb_the_run w es :
  reachable w ->
  Forall (λ e, is_start e = false ∧ is_reset e = false) es ->
  total_duration catalog <= time_of es ->
  phase (st (run es (step w StartUnlock))) = complete ∧
  progress (st (run es (step w StartUnlock))) = 100 ∧
  stepIndex (st (run es (step w StartUnlock))) = len catalog - 1 ∧
  completions (runToken (st w) + 1) (log (run es (step w StartUnlock))) = 1%nat.
Proof.
  intros HR Hes Hlong. apply reachable_Inv in HR.
  pose proof (Inv_step _ w StartUnlock HR) as HI1.
  destruct (start_facts _ w HR) as (Ht1 & Hnow1 & _ & Hm).
  assert (phase (st (step w StartUnlock)) <> idle ∧
          next_timer (now (step w StartUnlock)) (timers (step w StartUnlock)) = None)
    as (Hp1 & Hn1).
  { destruct (catalog !! 0%nat) as [s0|] eqn:H0.
    - destruct Hm as (Hst & h & c & Htm). rewrite Hst, Htm, Hnow1. cbn.
      split; [done|].
      assert (0 < duration s0) as Hd.
      { rewrite Forall_forall in positive_durations. apply positive_durations.
        by eapply list_elem_of_lookup_2. }
      unfold next_timer. cbn.
      destruct (Z.leb_spec (now w + 0 `max` duration s0) (now w)); [lia|done].
    - destruct Hm as (Hst & Htm). rewrite Hst, Htm. cbn. done. }
  destruct (undisturbed_run (now w) es _ HI1 (start_schedule _ w HR) Hp1 Hes Hn1)
    as (HI2 & Hs2 & Hp2 & Ht2 & Hnow2 & Hn2).
  pose proof (schedule_position _ _ _ HI2 Hs2 Hn2) as Hpos.
  rewrite Hnow2, Hnow1 in Hpos.
  assert (phase (st (run es (step w StartUnlock))) = complete) as Hc.
  { destruct (phase (st (run es (step w StartUnlock)))) eqn:Hph; [done| |done].
    destruct Hpos as (k & Hk & _ & _ & _ & Hhi).
    pose proof (elapsed_until_mono catalog (S k) (length catalog) ltac:(lia)).
    rewrite (elapsed_until_total _ positive_durations) in *. lia. }
  pose proof (inv_phase _ _ HI2) as Hph. unfold phase_inv in Hph.
  rewrite Hc, Ht2, Ht1 in Hph. destruct Hph as (_ & _ & Hs & Hpr & Hcomp). done.
Qed.

End Clicks.

(** ** The page as rendered *)

Section Rendered.

Variable catalog : list UnlockStep.

Local Abbreviation Inv := (Inv catalog).
Local Abbreviation step := (step catalog).
Local Abbreviation reachable := (reachable catalog).

Lemma ui_reachable_reachable w : ui_reachable catalog w -> reachable w.
Proof.
  induction 1 as [|w e _ IH]; [constructor|].
  destruct e; cbn [click]; try (by constructor).
  - destruct (start_disabled (st w)); [done|by constructor].
  - destruct (reset_disabled (st w)); [done|by constructor].
Qed.

Lemma completions_app tok l1 l2 :
  completions tok (l1 ++ l2) = (completions tok l1 + completions tok l2)%nat.
Proof. induction l1 as [|o l1 IH]; [done|]. cbn. rewrite IH. lia. Qed.

Lemma accounted_frame w w' :
  accounted w -> log w' = log w -> runToken (st w') = runToken (st w) ->
  (phase (st w') = running <-> phase (st w) = running) -> accounted w'.
Proof.
  intros Ha Hl Ht Hp tok Htok. rewrite Hl, Ht. rewrite Ha by lia.
  destruct (bool_decide_reflect (tok = runToken (st w) ∧ phase (st w) = running))
    as [[]|Hn]; destruct (bool_decide_reflect (tok = runToken (st w) ∧ phase (st w') = running))
    as [[]|Hn']; try done.
  - exfalso. apply Hn'. split; [done|]. by apply Hp.
  - exfalso. apply Hn. split; [done|]. by apply Hp.
Qed.

Lemma fired_accounted d w w' :
  Inv w -> fired catalog d w w' -> accounted w -> accounted w'.
Proof.
  intros HI HF Ha tok Htok.
  destruct HF as [t pm si k pr nw h c nid cls lg hs s' Hc Hs
                 |t pm si k pr nw h c nid cls lg hs Hc Hs]; cbn in *.
  - specialize (Ha tok Htok). cbn in Ha. exact Ha.
  - specialize (Ha tok Htok). cbn in Ha. rewrite Ha.
    destruct (Z.eqb_spec t tok) as [->|Hne].
    + rewrite bool_decide_eq_true_2 by done.
      rewrite bool_decide_eq_false_2 by (intros [_ ?]; done). done.
    + rewrite bool_decide_eq_false_2 by (intros [? _]; congruence).
      rewrite bool_decide_eq_false_2 by (intros [_ ?]; done). done.
Qed.

Lemma ticks_accounted D w w' :
  Inv w -> ticks catalog D w w' -> accounted w -> accounted w'.
Proof.
  intros HI HT. induction HT as [w|w tm w' Hn _ IH]; [done|]. intros Ha.
  destruct (fire_fired _ w D tm HI Hn) as (HF & _).
  apply IH; [by eapply Inv_fired|by eapply fired_accounted].
Qed.

Lemma click_accounted w e :
  Inv w -> accounted w -> accounted (click catalog w e).
Proof.
  intros HI Ha. destruct e; cbn [click].
  - unfold start_disabled.
    destruct (bool_decide_reflect (phase (st w) = running)) as [|Hp]; [done|].
    destruct (Inv_shape _ w HI) as [p t pm si sx pr nw nid cls lg Hp'|]; [|done].
    pose proof (inv_log _ _ HI) as Hlg. cbn in Hlg.
    cbn [step]. intros tok. destruct (catalog !! 0%nat) as [s0|] eqn:H0.
    + rewrite (start_resting catalog _ _ _ _ _ _ _ _ _ _ s0) by done. cbn.
      intros Htok. destruct (decide (tok = t + 1)) as [->|Hne].
      * rewrite bool_decide_eq_true_2 by done.
        apply completions_fresh. intros o Ho. specialize (Hlg o Ho). lia.
      * rewrite bool_decide_eq_false_2 by (intros [? _]; done).
        pose proof (Ha tok ltac:(cbn; lia)) as Ha'. cbn [log st runToken phase] in Ha'.
        rewrite Ha'. rewrite bool_decide_eq_false_2 by (intros [_ ?]; done). done.
    + rewrite start_resting_empty by done. cbn.
      intros Htok. rewrite bool_decide_eq_false_2 by (intros [_ ?]; done).
      destruct (Z.eqb_spec (t + 1) tok) as [<-|Hne].
      * cbn. f_equal. apply completions_fresh. intros o Ho. specialize (Hlg o Ho). lia.
      * pose proof (Ha tok ltac:(cbn; lia)) as Ha'. cbn [log st runToken phase] in Ha'.
        rewrite Ha'. rewrite bool_decide_eq_false_2 by (intros [_ ?]; done). done.
  - unfold reset_disabled.
    destruct (bool_decide_reflect (phase (st w) = running)) as [|Hp]; [done|].
    destruct (reset_facts _ w HI) as (Hst & _ & _ & Hl & _).
    intros tok. rewrite Hst, Hl. cbn [runToken phase]. intros Htok.
    rewrite (Ha tok Htok).
    rewrite !bool_decide_eq_false_2; [done|intros [_ ?]; done|intros [_ ?]; done].
  - eapply accounted_frame; [exact Ha|by rewrite toggle_eq..].
  - eapply accounted_frame; [exact Ha|by rewrite previous_eq..].
  - eapply accounted_frame; [exact Ha|by rewrite next_eq..].
  - cbn [step]. destruct (advance_ticks _ ms w HI) as (w0 & HT & _ & ->).
    eapply accounted_frame; [by eapply ticks_accounted|done..].
Qed.

(** X17: on the page as rendered, where start and reset are disabled while a
    run is in flight, no run is ever abandoned: every run token handed out
    has called the completion callback exactly once, except the token of
    the run in flight, which has not called it yet. *)
Theorem no_run_abandoned_on_the_page w tok :
  ui_reachable catalog w ->
  1 <= tok <= runToken (st w) ->
  completions tok (log w) =
    if bool_decide (tok = runToken (st w) ∧ phase (st w) = running) then O else 1%nat.
Proof.
  intros HU. revert tok. change (accounted w).
  induction HU as [|w e HU IH].
  - intros tok Htok. cbn in Htok. lia.
  - apply click_accounted; [|done].
    apply reachable_Inv. by apply ui_reachable_reachable.
Qed.

End Rendered.

(** ** What the view shows *)

Section View.

Variable catalog : list UnlockStep.

Local Abbreviation Inv := (Inv catalog).
Local Abbreviation step := (step catalog).
Local Abbreviation reachable := (reachable catalog).

Hypothesis at_most_128_steps : (length catalog <= 128)%nat.

Lemma progress_table_of_catalog i j :
  (i <= j)%nat -> (j < length catalog)%nat ->
  0 <= progress_of catalog i <= progress_of catalog j ∧ progress_of catalog j <= 90.
Proof.
  intros Hij Hj. unfold progress_of, len.
  by apply progress_table_sound.
Qed.

(** X18: the progress bar never needs its clamp: the progress is between 0 and
    100, so [Math.min(progress, 100)] is the progress itself, and it is 100
    exactly when the run is complete. *)
Theorem progress_bar_never_clamps w :
  reachable w ->
  0 <= progress (st w) <= 100 ∧
  progress_bar_width (st w) = progress (st w) ∧
  (progress (st w) = 100 <-> phase (st w) = complete).
Proof.
  intros HR. apply reachable_Inv in HR.
  destruct (progress_range _ progress_table_of_catalog w HR) as (Hlo & Hhi).
  unfold progress_bar_width.
  destruct (decide (phase (st w) = complete)) as [Hc|Hn].
  - rewrite (Hhi Hc). split_and!; done.
  - specialize (Hlo Hn). split_and!; try lia. split; [lia|done].
Qed.

(** X19: whatever the catalog, neither the step index nor the progress goes
    down under an event that is neither a start nor a reset. *)
Theorem progress_monotone_any_catalog w e :
  reachable w -> is_start e = false -> is_reset e = false ->
  stepIndex (st w) <= stepIndex (st (step w e)) ∧
  progress (st w) <= progress (st (step w e)).
Proof.
  intros HR Hs Hr. apply reachable_Inv in HR.
  by destruct (within_run_monotone _ progress_table_of_catalog w e HR Hs Hr) as (_ & ? & ?).
Qed.

End View.

Section Timeline.

Variable catalog : list UnlockStep.

Local Abbreviation Inv := (Inv catalog).
Local Abbreviation reachable := (reachable catalog).

(** X20: the test on the phase in the timeline never decides an entry: for every
    entry of the catalog the status follows from the step index alone, the
    entries before it complete, the one at it active, the ones after it
    pending; while idle all are pending. *)
Theorem timeline_follows_step_index w index :
  reachable w -> 0 <= index < len catalog ->
  timeline_status (st w) index =
    (if index <? stepIndex (st w) then timeline_complete
     else if index =? stepIndex (st w) then timeline_active
     else timeline_pending) ∧
  (phase (st w) = idle -> timeline_status (st w) index = timeline_pending).
Proof.
  intros HR Hi. apply reachable_Inv in HR.
  pose proof (inv_phase _ _ HR) as Hph. unfold phase_inv in Hph.
  unfold timeline_status.
  destruct (phase (st w)) eqn:Hp.
  - destruct Hph as (_ & _ & -> & _).
    destruct (Z.ltb_spec index (-1)); [lia|].
    destruct (Z.eqb_spec index (-1)); [lia|].
    rewrite bool_decide_eq_false_2 by done. done.
  - rewrite bool_decide_eq_false_2 by done. split; [done|]. done.
  - destruct Hph as (_ & _ & -> & _).
    destruct (Z.ltb_spec index (len catalog - 1)); [done|].
    destruct (Z.eqb_spec index (len catalog - 1)); [done|lia].
Qed.

(** X21: the phase is running exactly when a timer is pending, and then exactly
    one is, owned by the closure whose cleanup is registered: the buttons
    are disabled as long as, and only as long as, the sequencer has
    something armed. *)
Theorem running_iff_timer_pending w :
  reachable w ->
  (start_disabled (st w) = true <-> ∃ tm, timers w = [tm]) ∧
  (phase (st w) <> running <-> timers w = [] ∧ cleanup w = None) ∧
  (∀ tm, tm ∈ timers w → cleanup w = Some (owner tm) ∧ now w <= due tm).
Proof.
  intros HR. apply reachable_Inv in HR. unfold start_disabled.
  destruct (Inv_shape _ w HR) as [p t pm si sx pr nw nid cls lg Hp
                                 |t pm si k nw h d c nid cls lg hs s Hc Hh Hk Hd]; cbn.
  - rewrite bool_decide_eq_false_2 by done. split_and!.
    + split; [done|]. by intros [tm ?].
    + done.
    + intros tm Htm. by apply elem_of_nil in Htm.
  - split_and!.
    + split; [eauto|done].
    + split; [done|]. by intros [? _].
    + intros tm Htm. apply list_elem_of_singleton in Htm as ->. done.
Qed.

End Timeline.

(** ** The further properties at work on the page *)

Lemma renders_settle_witness :
  reachable STEP_SEQUENCE (demo [StartUnlock; Elapse 2000]) ∧
  queue (step STEP_SEQUENCE (demo [StartUnlock; Elapse 2000]) StartUnlock) = [].
Proof.
  assert (reachable STEP_SEQUENCE (demo [StartUnlock; Elapse 2000])) as HR
    by demo_is_reachable.
  exact (conj HR (renders_settle STEP_SEQUENCE _ StartUnlock HR)).
Defined.

Lemma elapse_fires_all_due_witness :
  reachable STEP_SEQUENCE (demo [StartUnlock]) ∧
  now (step STEP_SEQUENCE (demo [StartUnlock]) (Elapse 3000))
    = now (demo [StartUnlock]) + Z.max 0 3000.
Proof.
  assert (reachable STEP_SEQUENCE (demo [StartUnlock])) as HR by demo_is_reachable.
  exact (conj HR (proj1 (elapse_fires_all_due STEP_SEQUENCE _ 3000 HR))).
Defined.

Lemma step_on_show_witness :
  reachable STEP_SEQUENCE (demo [StartUnlock; Elapse 6500; TogglePreview]) ∧
  Forall (λ s, duration s <= MAX_DELAY) STEP_SEQUENCE ∧
  (2 < length STEP_SEQUENCE)%nat ∧
  elapsed_until STEP_SEQUENCE 2 <= 3000 < elapsed_until STEP_SEQUENCE 3 ∧
  stepIndex (st (step STEP_SEQUENCE
                   (step STEP_SEQUENCE (demo [StartUnlock; Elapse 6500; TogglePreview])
                      StartUnlock) (Elapse 3000))) = Z.of_nat 2 ∧
  progress (st (step STEP_SEQUENCE
                  (step STEP_SEQUENCE (demo [StartUnlock; Elapse 6500; TogglePreview])
                     StartUnlock) (Elapse 3000))) = 45.
Proof.
  assert (reachable STEP_SEQUENCE (demo [StartUnlock; Elapse 6500; TogglePreview])) as HR
    by demo_is_reachable.
  assert (Forall (λ s, duration s <= MAX_DELAY) STEP_SEQUENCE) as Hd
    by (repeat constructor; discriminate).
  assert (2 < length STEP_SEQUENCE)%nat as Hk by (cbn; lia).
  assert (elapsed_until STEP_SEQUENCE 2 <= 3000 < elapsed_until STEP_SEQUENCE 3) as Hms
    by (vm_compute; split; [discriminate|reflexivity]).
  assert (length STEP_SEQUENCE <= 18)%nat as Hlen by (cbn; lia).
  pose proof (step_on_show STEP_SEQUENCE _ 3000 2 HR Hd Hk Hms) as (_ & H2 & _ & H4).
  exact (conj HR (conj Hd (conj Hk (conj Hms (conj H2 (H4 Hlen)))))).
Defined.

Lemma no_early_completion_witness :
  reachable STEP_SEQUENCE (demo [StartUnlock; Elapse 2000]) ∧ STEP_SEQUENCE <> [] ∧
  Forall (λ s, duration s <= MAX_DELAY) STEP_SEQUENCE ∧
  0 <= 6499 < elapsed_until STEP_SEQUENCE (length STEP_SEQUENCE) ∧
  phase (st (step STEP_SEQUENCE
               (step STEP_SEQUENCE (demo [StartUnlock; Elapse 2000]) StartUnlock)
               (Elapse 6499))) = running.
Proof.
  assert (reachable STEP_SEQUENCE (demo [StartUnlock; Elapse 2000])) as HR
    by demo_is_reachable.
  assert (STEP_SEQUENCE <> []) as Hne by discriminate.
  assert (Forall (λ s, duration s <= MAX_DELAY) STEP_SEQUENCE) as Hd
    by (repeat constructor; discriminate).
  assert (0 <= 6499 < elapsed_until STEP_SEQUENCE (length STEP_SEQUENCE)) as Hms
    by (vm_compute; split; [discriminate|reflexivity]).
  pose proof (no_early_completion STEP_SEQUENCE _ 6499 HR Hne Hd Hms) as (H1 & _).
  exact (conj HR (conj Hne (conj Hd (conj Hms H1)))).
Defined.

Lemma beat_navigation_cycles_witness :
  reachable STEP_SEQUENCE (demo [StartUnlock; Elapse 3000]) ∧
  step STEP_SEQUENCE (step STEP_SEQUENCE (demo [StartUnlock; Elapse 3000]) NextBeat)
    PreviousBeat = demo [StartUnlock; Elapse 3000].
Proof.
  assert (reachable STEP_SEQUENCE (demo [StartUnlock; Elapse 3000])) as HR
    by demo_is_reachable.
  pose proof (beat_navigation_cycles STEP_SEQUENCE _ HR) as (_ & _ & H3 & _).
  exact (conj HR H3).
Defined.

Lemma narration_line_defined_witness :
  reachable STEP_SEQUENCE (demo [StartUnlock; Elapse 6500; PreviousBeat]) ∧
  1 <= beat_label (st (demo [StartUnlock; Elapse 6500; PreviousBeat])) <= 3.
Proof.
  assert (reachable STEP_SEQUENCE (demo [StartUnlock; Elapse 6500; PreviousBeat])) as HR
    by demo_is_reachable.
  exact (conj HR (proj2 (narration_line_defined STEP_SEQUENCE _ HR))).
Defined.

Lemma togglePreview_involutive_witness :
  reachable STEP_SEQUENCE (demo [StartUnlock; Elapse 6500]) ∧
  step STEP_SEQUENCE (step STEP_SEQUENCE (demo [StartUnlock; Elapse 6500]) TogglePreview)
    TogglePreview = demo [StartUnlock; Elapse 6500].
Proof.
  assert (reachable STEP_SEQUENCE (demo [StartUnlock; Elapse 6500])) as HR
    by demo_is_reachable.
  exact (conj HR (proj1 (togglePreview_involutive STEP_SEQUENCE _ HR))).
Defined.

Lemma start_is_a_fresh_run_witness :
  reachable STEP_SEQUENCE (demo [StartUnlock; Elapse 4000]) ∧ STEP_SEQUENCE <> [] ∧
  st (step STEP_SEQUENCE (demo [StartUnlock; Elapse 4000]) StartUnlock)
    = mkState running (runToken (st (demo [StartUnlock; Elapse 4000])) + 1) light 0 0
        (progress_at (len STEP_SEQUENCE) 0).
Proof.
  assert (reachable STEP_SEQUENCE (demo [StartUnlock; Elapse 4000])) as HR
    by demo_is_reachable.
  assert (STEP_SEQUENCE <> []) as Hne by discriminate.
  exact (conj HR (conj Hne (proj1 (start_is_a_fresh_run STEP_SEQUENCE _ HR Hne)))).
Defined.

Lemma empty_catalog_completes_at_once_witness :
  reachable [] initial ∧ @nil UnlockStep = [] ∧
  st (step [] initial StartUnlock)
    = mkState complete (runToken (st initial) + 1) dark 2 (-1) 100.
Proof.
  assert (reachable [] initial) as HR by constructor.
  exact (conj HR (conj eq_refl
           (proj1 (empty_catalog_completes_at_once [] initial HR eq_refl)))).
Defined.

Lemma cleanup_clears_its_timers_witness :
  cleanup (demo [StartUnlock]) = Some 0%nat ∧
  closures (demo [StartUnlock]) !! 0%nat = Some (mkClosure 1 false [1%nat]) ∧
  cleanup (cleanup_sequence (demo [StartUnlock])) = None.
Proof.
  assert (cleanup (demo [StartUnlock]) = Some 0%nat) as Hcu by (vm_compute; reflexivity).
  assert (closures (demo [StartUnlock]) !! 0%nat = Some (mkClosure 1 false [1%nat])) as Hc
    by (vm_compute; reflexivity).
  pose proof (cleanup_clears_its_timers STEP_SEQUENCE _ _ _ Hcu Hc) as (_ & _ & H3 & _).
  exact (conj Hcu (conj Hc H3)).
Defined.

Lemma unmount_cancels_everything_witness :
  reachable STEP_SEQUENCE (demo [StartUnlock; Elapse 2000]) ∧
  st (advance STEP_SEQUENCE 9000 (unmount (demo [StartUnlock; Elapse 2000])))
    = st (demo [StartUnlock; Elapse 2000]).
Proof.
  assert (reachable STEP_SEQUENCE (demo [StartUnlock; Elapse 2000])) as HR
    by demo_is_reachable.
  pose proof (unmount_cancels_everything STEP_SEQUENCE _ 9000 HR) as (_ & _ & H3 & _).
  exact (conj HR H3).
Defined.

Lemma progress_table_up_to_128_witness :
  (5 <= 128)%nat ∧ (0 <= 4)%nat ∧ (4 < 5)%nat ∧
  progress_at (Z.of_nat 5) (Z.of_nat 4) <= 90.
Proof.
  assert (5 <= 128)%nat as Hn by lia.
  assert (0 <= 4)%nat as Hij by lia.
  assert (4 < 5)%nat as Hj by lia.
  exact (conj Hn (conj Hij (conj Hj (proj2 (progress_table_up_to_128 5 0 4 Hn Hij Hj))))).
Defined.

Lemma progress_exact_up_to_18_witness :
  (5 <= 18)%nat ∧ (1 < 5)%nat ∧
  progress_at (Z.of_nat 5) (Z.of_nat 1) = round_ratio_90 (Z.of_nat 5) (Z.of_nat 1).
Proof.
  assert (5 <= 18)%nat as Hn by lia.
  assert (1 < 5)%nat as Hi by lia.
  exact (conj Hn (conj Hi (proj1 (progress_exact_up_to_18 5 1 Hn Hi)))).
Defined.

Lemma elapse_adds_up_witness :
  reachable STEP_SEQUENCE (demo [StartUnlock]) ∧ 0 <= 1000 ∧ 0 <= 2500 ∧
  step STEP_SEQUENCE (step STEP_SEQUENCE (demo [StartUnlock]) (Elapse 1000)) (Elapse 2500)
    = step STEP_SEQUENCE (demo [StartUnlock]) (Elapse (1000 + 2500)).
Proof.
  assert (reachable STEP_SEQUENCE (demo [StartUnlock])) as HR by demo_is_reachable.
  assert (0 <= 1000) as Ha by lia.
  assert (0 <= 2500) as Hb by lia.
  exact (conj HR (conj Ha (conj Hb (elapse_adds_up STEP_SEQUENCE _ 1000 2500 HR Ha Hb)))).
Defined.

Lemma clicks_do_not_disturb_the_run_witness :
  Forall (λ s, 0 < duration s) STEP_SEQUENCE ∧
  reachable STEP_SEQUENCE initial ∧
  Forall (λ e, is_start e = false ∧ is_reset e = false)
    [Elapse 3000; TogglePreview; NextBeat; Elapse 3500] ∧
  total_duration STEP_SEQUENCE <= time_of [Elapse 3000; TogglePreview; NextBeat; Elapse 3500] ∧
  phase (st (run STEP_SEQUENCE [Elapse 3000; TogglePreview; NextBeat; Elapse 3500]
               (step STEP_SEQUENCE initial StartUnlock))) = complete.
Proof.
  assert (Forall (λ s, 0 < duration s) STEP_SEQUENCE) as Hpos by (repeat constructor).
  assert (reachable STEP_SEQUENCE initial) as HR by constructor.
  assert (Forall (λ e, is_start e = false ∧ is_reset e = false)
            [Elapse 3000; TogglePreview; NextBeat; Elapse 3500]) as Hes
    by (repeat constructor).
  assert (total_duration STEP_SEQUENCE
          <= time_of [Elapse 3000; TogglePreview; NextBeat; Elapse 3500]) as Hlong
    by (vm_compute; discriminate).
  pose proof (clicks_do_not_disturb_the_run STEP_SEQUENCE Hpos initial _ HR Hes Hlong)
    as (H1 & _).
  exact (conj Hpos (conj HR (conj Hes (conj Hlong H1)))).
Defined.

Lemma no_run_abandoned_on_the_page_witness :
  ui_reachable STEP_SEQUENCE
    (click STEP_SEQUENCE (click STEP_SEQUENCE (click STEP_SEQUENCE initial StartUnlock)
                            (Elapse 3000)) ResetUnlock) ∧
  1 <= 1 <= runToken (st (click STEP_SEQUENCE
                            (click STEP_SEQUENCE (click STEP_SEQUENCE initial StartUnlock)
                               (Elapse 3000)) ResetUnlock)) ∧
  completions 1 (log (click STEP_SEQUENCE
                        (click STEP_SEQUENCE (click STEP_SEQUENCE initial StartUnlock)
                           (Elapse 3000)) ResetUnlock)) = 0%nat.
Proof.
  assert (ui_reachable STEP_SEQUENCE
            (click STEP_SEQUENCE (click STEP_SEQUENCE (click STEP_SEQUENCE initial StartUnlock)
                                    (Elapse 3000)) ResetUnlock)) as HU
    by (repeat apply ui_click; apply ui_initial).
  assert (1 <= 1 <= runToken (st (click STEP_SEQUENCE
                            (click STEP_SEQUENCE (click STEP_SEQUENCE initial StartUnlock)
                               (Elapse 3000)) ResetUnlock))) as Htok
    by (vm_compute; split; discriminate).
  exact (conj HU (conj Htok (no_run_abandoned_on_the_page STEP_SEQUENCE _ 1 HU Htok))).
Defined.

Lemma progress_bar_never_clamps_witness :
  (length STEP_SEQUENCE <= 128)%nat ∧
  reachable STEP_SEQUENCE (demo [StartUnlock; Elapse 6500]) ∧
  progress_bar_width (st (demo [StartUnlock; Elapse 6500]))
    = progress (st (demo [StartUnlock; Elapse 6500])).
Proof.
  assert (length STEP_SEQUENCE <= 128)%nat as Hn by (cbn; lia).
  assert (reachable STEP_SEQUENCE (demo [StartUnlock; Elapse 6500])) as HR
    by demo_is_reachable.
  pose proof (progress_bar_never_clamps STEP_SEQUENCE Hn _ HR) as (_ & H2 & _).
  exact (conj Hn (conj HR H2)).
Defined.

Lemma progress_monotone_any_catalog_witness :
  (length (take 3 STEP_SEQUENCE) <= 128)%nat ∧
  reachable (take 3 STEP_SEQUENCE) (step (take 3 STEP_SEQUENCE) initial StartUnlock) ∧
  is_start (Elapse 2000) = false ∧ is_reset (Elapse 2000) = false ∧
  progress (st (step (take 3 STEP_SEQUENCE) initial StartUnlock))
    <= progress (st (step (take 3 STEP_SEQUENCE)
                       (step (take 3 STEP_SEQUENCE) initial StartUnlock) (Elapse 2000))).
Proof.
  assert (length (take 3 STEP_SEQUENCE) <= 128)%nat as Hn by (cbn; lia).
  assert (reachable (take 3 STEP_SEQUENCE) (step (take 3 STEP_SEQUENCE) initial StartUnlock))
    as HR by (repeat apply reach_step; apply reach_initial).
  pose proof (progress_monotone_any_catalog _ Hn _ (Elapse 2000) HR eq_refl eq_refl)
    as (_ & H2).
  exact (conj Hn (conj HR (conj eq_refl (conj eq_refl H2)))).
Defined.

Lemma timeline_follows_step_index_witness :
  reachable STEP_SEQUENCE (demo [StartUnlock; Elapse 3000]) ∧
  0 <= 3 < len STEP_SEQUENCE ∧
  timeline_status (st (demo [StartUnlock; Elapse 3000])) 3 =
    (if 3 <? stepIndex (st (demo [StartUnlock; Elapse 3000])) then timeline_complete
     else if 3 =? stepIndex (st (demo [StartUnlock; Elapse 3000])) then timeline_active
     else timeline_pending).
Proof.
  assert (reachable STEP_SEQUENCE (demo [StartUnlock; Elapse 3000])) as HR
    by demo_is_reachable.
  assert (0 <= 3 < len STEP_SEQUENCE) as Hi
    by (vm_compute; split; [discriminate|reflexivity]).
  exact (conj HR (conj Hi (proj1 (timeline_follows_step_index STEP_SEQUENCE _ 3 HR Hi)))).
Defined.

Lemma running_iff_timer_pending_witness :
  reachable STEP_SEQUENCE (demo [StartUnlock; Elapse 3000]) ∧
  (start_disabled (st (demo [StartUnlock; Elapse 3000])) = true
   <-> ∃ tm, timers (demo [StartUnlock; Elapse 3000]) = [tm]).
Proof.
  assert (reachable STEP_SEQUENCE (demo [StartUnlock; Elapse 3000])) as HR
    by demo_is_reachable.
  exact (conj HR (proj1 (running_iff_timer_pending STEP_SEQUENCE _ HR))).
Defined.
